(** * Relational-reasoning engine of the ontology pipeline

    Shallow embedding of [src/ontology/graph_interrogator.py]:
    entity resolution ([_identify_all_entities]), breadth-first path
    search over the undirected view of the triple graph
    ([_find_shortest_path]), fact aggregation and report formatting
    ([find_reasoning_path]). *)

From Stdlib Require Import List String Ascii Bool Arith Lia Permutation Sorted.
Import ListNotations.
Local Open Scope string_scope.
Local Open Scope list_scope.

(** ** RDF terms, triples and the graph store

    The three kinds of rdflib terms.  Two terms are equal when they are of
    the same kind and carry the same text, as rdflib's [Identifier.__eq__]
    has it.  Literals are plain (their [value] is their text). *)

Inductive term : Type :=
| URIRef (iri : string)
| BNode (ident : string)
| Literal (lexical : string).

Definition triple : Type := (term * term * term)%type.

Definition t_subject (t : triple) : term := fst (fst t).
Definition t_predicate (t : triple) : term := snd (fst t).
Definition t_object (t : triple) : term := snd t.

(** The store enumerates its triples in a fixed order; every pattern query
    yields the matching triples in that order.  The core never writes to
    the graph. *)
Definition Graph : Type := list triple.

Definition term_eq_dec (a b : term) : {a = b} + {a <> b}.
Proof. decide equality; apply string_dec. Defined.

Definition term_eqb (a b : term) : bool :=
  if term_eq_dec a b then true else false.

Definition triple_eq_dec (a b : triple) : {a = b} + {a <> b}.
Proof. repeat decide equality; apply string_dec. Defined.

(** [isinstance(x, URIRef)] and [isinstance(x, Literal)]. *)
Definition is_URIRef (x : term) : bool :=
  match x with URIRef _ => true | _ => false end.

Definition is_Literal (x : term) : bool :=
  match x with Literal _ => true | _ => false end.

(** [str(x)]. *)
Definition str (x : term) : string :=
  match x with URIRef s | BNode s | Literal s => s end.

(** Python truth value of a term: every kind is falsy exactly on the empty
    text. *)
Definition truthy (x : term) : bool :=
  match str x with EmptyString => false | _ => true end.

(** [x in xs] on a Python set or list. *)
Definition mem (x : term) (xs : list term) : bool :=
  if in_dec term_eq_dec x xs then true else false.

Definition RDFS_label : term :=
  URIRef "http://www.w3.org/2000/01/rdf-schema#label".
Definition RDF_type : term :=
  URIRef "http://www.w3.org/1999/02/22-rdf-syntax-ns#type".

(** [graph.predicate_objects(subject=s)] *)
Definition predicate_objects (graph : Graph) (s : term) : list (term * term) :=
  map (fun t => (t_predicate t, t_object t))
      (filter (fun t => term_eqb (t_subject t) s) graph).

(** [graph.subject_predicates(object=o)] *)
Definition subject_predicates (graph : Graph) (o : term) : list (term * term) :=
  map (fun t => (t_subject t, t_predicate t))
      (filter (fun t => term_eqb (t_object t) o) graph).

(** [graph.triples((s, None, None))] *)
Definition triples_from (graph : Graph) (s : term) : list triple :=
  filter (fun t => term_eqb (t_subject t) s) graph.

(** [graph.triples((None, p, None))] *)
Definition triples_with_predicate (graph : Graph) (p : term) : list triple :=
  filter (fun t => term_eqb (t_predicate t) p) graph.

(** [graph.value(predicate=p, object=o)]: the first subject, if any. *)
Definition value_subject (graph : Graph) (p o : term) : option term :=
  match filter (fun t => term_eqb (t_predicate t) p && term_eqb (t_object t) o)
               graph with
  | [] => None
  | t :: _ => Some (t_subject t)
  end.

(** [graph.value(subject=s, predicate=p)]: the first object, if any. *)
Definition value_object (graph : Graph) (s p : term) : option term :=
  match filter (fun t => term_eqb (t_subject t) s && term_eqb (t_predicate t) p)
               graph with
  | [] => None
  | t :: _ => Some (t_object t)
  end.

(** ** Path search: [_find_shortest_path] *)

Definition path : Type := list triple.
Definition task : Type := (term * path)%type.

(** What the search loop has produced: a path ([return new_path]), the
    exhausted queue ([return None]), or an unfinished loop. *)
Inductive search_result : Type :=
| Found (p : path)
| NoPath
| OutOfFuel.

(** The body shared by the two [for] loops of one dequeued task: each
    candidate is a neighbour together with the hop (in its stored direction)
    that reaches it.  [inl] is the early [return new_path]; [inr] is the
    queue and the visited set after the loop. *)
Fixpoint explore (end_node : term) (path0 : path)
         (candidates : list (term * triple))
         (queue : list task) (visited : list term)
  : path + (list task * list term) :=
  match candidates with
  | [] => inr (queue, visited)
  | (n, hop) :: rest =>
      if is_URIRef n && negb (mem n visited) then
        let new_path := path0 ++ [hop] in
        if term_eqb n end_node then inl new_path
        else explore end_node path0 rest
                     (queue ++ [(n, new_path)]) (n :: visited)
      else explore end_node path0 rest queue visited
  end.

(** Phase 1: the outgoing edges of [current], as [(o, (current, p, o))]. *)
Definition outgoing (graph : Graph) (current : term) : list (term * triple) :=
  map (fun row => (snd row, (current, fst row, snd row)))
      (predicate_objects graph current).

(** Phase 2: the incoming edges of [current], as [(s, (s, p, current))]. *)
Definition incoming (graph : Graph) (current : term) : list (term * triple) :=
  map (fun row => (fst row, (fst row, snd row, current)))
      (subject_predicates graph current).

(** The [while queue:] loop. *)
Fixpoint bfs_loop (fuel : nat) (graph : Graph) (end_node : term)
         (queue : list task) (visited : list term) : search_result :=
  match fuel with
  | O => OutOfFuel
  | S fuel' =>
      match queue with
      | [] => NoPath
      | (current_node, path0) :: queue' =>
          match explore end_node path0 (outgoing graph current_node)
                        queue' visited with
          | inl new_path => Found new_path
          | inr (queue1, visited1) =>
              match explore end_node path0 (incoming graph current_node)
                            queue1 visited1 with
              | inl new_path => Found new_path
              | inr (queue2, visited2) =>
                  bfs_loop fuel' graph end_node queue2 visited2
              end
          end
      end
  end.

(** Every node is enqueued at most once, and every enqueued node but the
    start occurs in a triple of the graph: this many iterations are never
    used up (see [bfs_loop_terminates]). *)
Definition search_fuel (graph : Graph) : nat := 2 * List.length graph + 2.

Definition _find_shortest_path (graph : Graph) (start_node end_node : term)
  : option path :=
  if term_eqb start_node end_node then Some []
  else
    match bfs_loop (search_fuel graph) graph end_node
                   [(start_node, [])] [start_node] with
    | Found p => Some p
    | NoPath => None
    | OutOfFuel => None
    end.

(** ** Python strings and sets *)

(** [s.lower()]: the ASCII capitals are lowered, every other code unit is
    kept. *)
Definition ascii_lower (c : ascii) : ascii :=
  let n := nat_of_ascii c in
  if ((65 <=? n)%nat && (n <=? 90)%nat)%bool then ascii_of_nat (n + 32) else c.

Fixpoint lower (s : string) : string :=
  match s with
  | EmptyString => EmptyString
  | String c rest => String (ascii_lower c) (lower rest)
  end.

(** [needle in haystack] on strings. *)
Fixpoint contains (needle haystack : string) : bool :=
  String.prefix needle haystack
  || match haystack with
     | EmptyString => false
     | String _ rest => contains needle rest
     end.

(** [s.split(c)] and [segments[-1]]. *)
Fixpoint split_on (c : ascii) (s : string) : list string :=
  match s with
  | EmptyString => [EmptyString]
  | String x rest =>
      if Ascii.eqb x c then EmptyString :: split_on c rest
      else match split_on c rest with
           | seg :: segs => String x seg :: segs
           | [] => [String x EmptyString]
           end
  end.

Definition last_segment (c : ascii) (s : string) : string :=
  List.last (split_on c s) EmptyString.

(** A Python [set] is kept as the list of its members in the order they
    were first added. *)
Section PySet.
Context {A : Type} (eq_dec : forall a b : A, {a = b} + {a <> b}).

(** [s.add(x)] *)
Definition set_add (x : A) (s : list A) : list A :=
  if in_dec eq_dec x s then s else s ++ [x].

(** [s.update(xs)], also [set(xs)] from the empty set. *)
Definition set_update (s : list A) (xs : list A) : list A :=
  fold_left (fun acc x => set_add x acc) xs s.
End PySet.

(** Iterating over a set ([list(s)], [for x in s]) yields its members in an
    order that the hash seed of the interpreter fixes; the code does not
    control it. *)
Record set_order : Type := {
  iterate : forall A : Type, list A -> list A;
  iterate_perm : forall (A : Type) (l : list A), Permutation l (iterate A l)
}.
Arguments iterate _ {A} _.

Definition insertion_order : set_order :=
  {| iterate := fun _ l => l;
     iterate_perm := fun _ l => Permutation_refl l |}.

Definition reverse_order : set_order :=
  {| iterate := fun _ l => rev l;
     iterate_perm := fun _ l => Permutation_rev l |}.

(** ** Entity resolution: [_identify_all_entities] *)

Definition synonym_map : list (string * list string) :=
  [ ("solution", ["Algorithme de compensation"; "Stratégie d'Optimisation";
                  "Padding mémoire 3D"]);
    ("corriger", ["Algorithme de compensation"; "Stratégie d'Optimisation"]);
    ("lent", ["Goulot d'étranglement réseau"; "Haute latence inter-groupe"]);
    ("problème", ["Problème de précision"; "ProblemePerformance";
                  "False sharing"; "Bank conflicts L2"]) ].

(** The inner [for label_text in labels_in_ontology] body. *)
Definition add_synonym_label (graph : Graph) (found : list term)
           (label_text : string) : list term :=
  match value_subject graph RDFS_label (Literal label_text) with
  | Some subject =>
      if truthy subject && is_URIRef subject
      then set_add term_eq_dec subject found
      else found
  | None => found
  end.

(** Part 1: the loop over [synonym_map.items()]. *)
Definition synonym_pass (question_lower : string) (graph : Graph)
           (found : list term) : list term :=
  fold_left
    (fun found entry =>
       if contains (fst entry) question_lower
       then fold_left (add_synonym_label graph) (snd entry) found
       else found)
    synonym_map found.

(** Part 2: the loop over the label triples of the graph. *)
Definition direct_label_pass (question_lower : string) (graph : Graph)
           (found : list term) : list term :=
  fold_left
    (fun found t =>
       let s := t_subject t in
       let o := t_object t in
       if is_URIRef s && is_Literal o then
         let label_lower := lower (str o) in
         if contains label_lower question_lower then
           if mem s found then found else set_add term_eq_dec s found
         else found
       else found)
    (triples_with_predicate graph RDFS_label) found.

Definition found_entities (question : string) (graph : Graph) : list term :=
  let question_lower := lower question in
  direct_label_pass question_lower graph
    (synonym_pass question_lower graph []).

Definition _identify_all_entities (ord : set_order) (question : string)
           (graph : Graph) : list term :=
  iterate ord (found_entities question graph).

(** The same function with [.lower()] left open.  [lower] above lowers the
    ASCII capitals only, where [str.lower] follows Unicode; what holds of the
    resolver for every [str_lower] holds of it with [str.lower]. *)
Section Lowercasing.
Variable str_lower : string -> string.

Definition direct_label_pass_with (question_lower : string) (graph : Graph)
           (found : list term) : list term :=
  fold_left
    (fun found t =>
       let s := t_subject t in
       let o := t_object t in
       if is_URIRef s && is_Literal o then
         let label_lower := str_lower (str o) in
         if contains label_lower question_lower then
           if mem s found then found else set_add term_eq_dec s found
         else found
       else found)
    (triples_with_predicate graph RDFS_label) found.

Definition found_entities_with (question : string) (graph : Graph)
  : list term :=
  let question_lower := str_lower question in
  direct_label_pass_with question_lower graph
    (synonym_pass question_lower graph []).

Definition _identify_all_entities_with (ord : set_order) (question : string)
           (graph : Graph) : list term :=
  iterate ord (found_entities_with question graph).
End Lowercasing.

(** ** Labels and report lines: [_get_node_label] *)

(** A call either returns or raises: [label.value] exists on literals
    only. *)
Inductive outcome (A : Type) : Type :=
| Returned (a : A)
| AttributeError.
Arguments Returned {A} a.
Arguments AttributeError {A}.

Definition bind {A B : Type} (m : outcome A) (k : A -> outcome B)
  : outcome B :=
  match m with
  | Returned a => k a
  | AttributeError => AttributeError
  end.

Notation "x <- m ;; k" := (bind m (fun x => k))
  (at level 61, m at next level, right associativity).

(** A list comprehension whose element expression may raise. *)
Fixpoint comprehension {A B : Type} (f : A -> outcome B) (xs : list A)
  : outcome (list B) :=
  match xs with
  | [] => Returned []
  | x :: rest =>
      y <- f x ;;
      ys <- comprehension f rest ;;
      Returned (y :: ys)
  end.

(** [node_uri.split('#')[-1].split('/')[-1]] *)
Definition short_name (iri : string) : string :=
  last_segment "/"%char (last_segment "#"%char iri).

Definition _get_node_label (node_uri : term) (graph : Graph)
  : outcome string :=
  if negb (is_URIRef node_uri) then Returned (str node_uri)
  else
    match value_object graph node_uri RDFS_label with
    | Some label =>
        if truthy label then
          match label with
          | Literal value => Returned value
          | _ => AttributeError
          end
        else Returned (short_name (str node_uri))
    | None => Returned (short_name (str node_uri))
    end.

Definition quote : string := String (ascii_of_nat 34) EmptyString.

(** One element of [formatted_facts]. *)
Definition format_fact (graph : Graph) (t : triple) : outcome string :=
  s <- _get_node_label (t_subject t) graph ;;
  p <- _get_node_label (t_predicate t) graph ;;
  o <- (if is_URIRef (t_object t)
        then _get_node_label (t_object t) graph
        else Returned (quote ++ str (t_object t) ++ quote)%string) ;;
  Returned (s ++ " --[" ++ p ++ "]--> " ++ o)%string.

(** One element of [formatted_path]. *)
Definition format_hop (graph : Graph) (t : triple) : outcome string :=
  s <- _get_node_label (t_subject t) graph ;;
  p <- _get_node_label (t_predicate t) graph ;;
  o <- _get_node_label (t_object t) graph ;;
  Returned (s ++ " --[" ++ p ++ "]--> " ++ o)%string.

(** ** Orchestration: [find_reasoning_path] *)

(** [itertools.permutations(xs, 2)]: every position paired with every other
    position, in the order of the positions. *)
Fixpoint pairs_from {A : Type} (before after : list A) : list (A * A) :=
  match after with
  | [] => []
  | x :: rest =>
      map (pair x) (before ++ rest) ++ pairs_from (before ++ [x]) rest
  end.

Definition permutations2 {A : Type} (xs : list A) : list (A * A) :=
  pairs_from [] xs.

(** [if path_found:] -- [None] and the empty list are both falsy. *)
Definition path_truthy (path_found : option path) : bool :=
  match path_found with
  | Some (_ :: _) => true
  | _ => false
  end.

(** The [for start_node, end_node in permutations(...)] loop.  Next to
    [path_found] it yields the pairs on which [_find_shortest_path] was
    called, in call order. *)
Fixpoint try_pairs (graph : Graph) (pairs : list (term * term))
         (path_found : option path) : option path * list (term * term) :=
  match pairs with
  | [] => (path_found, [])
  | (start_node, end_node) :: rest =>
      let path_found := _find_shortest_path graph start_node end_node in
      if path_truthy path_found then (path_found, [(start_node, end_node)])
      else
        let '(final, calls) := try_pairs graph rest path_found in
        (final, (start_node, end_node) :: calls)
  end.

(** Step 2: [path_found] and the searches made. *)
Definition select_path (graph : Graph) (initial_entities : list term)
  : option path * list (term * term) :=
  if (2 <=? List.length initial_entities)%nat
  then try_pairs graph (permutations2 initial_entities) None
  else (None, []).

(** The label and type facts of one node of the path. *)
Definition add_basic_facts (graph : Graph) (facts : list triple) (node : term)
  : list triple :=
  fold_left
    (fun facts t =>
       if mem (t_predicate t) [RDFS_label; RDF_type]
       then set_add triple_eq_dec t facts
       else facts)
    (triples_from graph node) facts.

(** [nodes_in_path] *)
Definition nodes_in_path (path_found : path) : list term :=
  set_update term_eq_dec
    (set_update term_eq_dec [] (map t_subject path_found))
    (filter is_URIRef (map t_object path_found)).

(** Step 3, case A. *)
Definition path_regime (ord : set_order) (graph : Graph) (path_found : path)
  : list triple :=
  fold_left (add_basic_facts graph)
            (iterate ord (nodes_in_path path_found))
            (set_update triple_eq_dec [] path_found).

(** Step 3, case B. *)
Definition neighborhood_regime (graph : Graph) (initial_entities : list term)
  : list triple :=
  match initial_entities with
  | main_entity :: _ =>
      set_update triple_eq_dec [] (triples_from graph main_entity)
  | [] => []
  end.

(** Step 3: [all_facts_triplets]. *)
Definition collect_facts (ord : set_order) (graph : Graph)
           (initial_entities : list term) (path_found : option path)
  : list triple :=
  match path_found with
  | Some (hop :: hops) => path_regime ord graph (hop :: hops)
  | _ => neighborhood_regime graph initial_entities
  end.

Record report : Type := {
  question : string;
  entites_initiales : list string;
  chemin_trouve : list string;
  faits_deduits : list string
}.

(** Step 4. *)
Definition format_report (ord : set_order) (graph : Graph)
           (question0 : string) (initial_entities : list term)
           (path_found : option path) (all_facts_triplets : list triple)
  : outcome report :=
  formatted_facts <-
    comprehension (format_fact graph) (iterate ord all_facts_triplets) ;;
  formatted_path <-
    (if path_truthy path_found
     then comprehension (format_hop graph)
                        (match path_found with Some p => p | None => [] end)
     else Returned []) ;;
  labels <-
    comprehension (fun e => _get_node_label e graph) initial_entities ;;
  Returned {| question := question0;
              entites_initiales := labels;
              chemin_trouve := formatted_path;
              faits_deduits := formatted_facts |}.

Definition find_reasoning_path (ord : set_order) (question0 : string)
           (graph : Graph) : outcome report :=
  let initial_entities := _identify_all_entities ord question0 graph in
  match initial_entities with
  | [] => Returned {| question := question0;
                      entites_initiales := [];
                      chemin_trouve := [];
                      faits_deduits := [] |}
  | _ :: _ =>
      let path_found := fst (select_path graph initial_entities) in
      let all_facts_triplets :=
        collect_facts ord graph initial_entities path_found in
      format_report ord graph question0 initial_entities path_found
                    all_facts_triplets
  end.

(** ** Connections between entities

    [hop_between graph u x t]: the stored triple [t] joins [u] and [x], in
    either direction. *)
Definition hop_between (graph : Graph) (u x : term) (t : triple) : Prop :=
  In t graph /\
  ((t_subject t = u /\ t_object t = x) \/ (t_subject t = x /\ t_object t = u)).

(** [walk graph a b nodes hops]: [hops] is a chain of stored triples leading
    from [a] to [b] through the entities [nodes] (from [a] to [b], both
    included), every triple traversed in either direction.  Literals and
    blank nodes end a fact: a chain does not pass through them. *)
Inductive walk (graph : Graph) (a : term) : term -> list term -> path -> Prop :=
| walk_nil : walk graph a a [a] []
| walk_snoc (b c : term) (nodes : list term) (t : triple) (hops : path) :
    walk graph a b nodes hops ->
    hop_between graph b c t ->
    is_URIRef c = true ->
    walk graph a c (nodes ++ [c]) (hops ++ [t]).

(** An undirected connection of [start_node] and [end_node]. *)
Definition connection (graph : Graph) (start_node end_node : term)
           (hops : path) : Prop :=
  exists nodes, walk graph start_node end_node nodes hops.

Definition hop_count (p : path) : nat := List.length p.

(** The nodes of the graph that the search has not yet marked. *)
Definition unvisited (graph : Graph) (visited : list term) : nat :=
  List.length (filter (fun n => negb (mem n visited))
                      (map t_subject graph ++ map t_object graph)).

(** The state of the [while] loop at the top of an iteration. *)
Record bfs_inv (graph : Graph) (start_node end_node : term)
       (queue : list task) (visited : list term) : Prop := {
  inv_start : In start_node visited;
  inv_end : ~ In end_node visited;
  inv_tasks : forall v p, In (v, p) queue ->
      In v visited /\
      exists nodes, walk graph start_node v nodes p /\ NoDup nodes
                    /\ incl nodes visited;
  inv_sorted : StronglySorted
      (fun a b : task => hop_count (snd a) <= hop_count (snd b)) queue;
  inv_span : forall a b, In a queue -> In b queue ->
      hop_count (snd b) <= S (hop_count (snd a));
  inv_closed : forall u, In u visited -> ~ In u (map fst queue) ->
      forall x t, hop_between graph u x t -> is_URIRef x = true ->
                  In x visited;
  inv_minimal : forall v p, In (v, p) queue ->
      forall nodes w, walk graph start_node v nodes w ->
                      hop_count p <= hop_count w
}.

(** ** Notions used by the statements *)

(** The reverse-label lookup of [label_text] yields the single entity [e]:
    the lookup returns a subject, it is not empty and it is a URI
    reference. *)
Definition resolves_to (graph : Graph) (label_text : string) (e : term)
  : Prop :=
  value_subject graph RDFS_label (Literal label_text) = Some e /\
  truthy e = true /\ is_URIRef e = true.

(** A found set: no entity twice, URI references only. *)
Definition entity_set (found : list term) : Prop :=
  NoDup found /\ forall e, In e found -> is_URIRef e = true.

(** A pair whose search returns no path. *)
Definition fruitless (graph : Graph) (pair : term * term) : Prop :=
  path_truthy (_find_shortest_path graph (fst pair) (snd pair)) = false.

(** The label or type fact [t] of the node [n]. *)
Definition basic_fact_of (graph : Graph) (n : term) (t : triple) : Prop :=
  In t graph /\ t_subject t = n /\
  (t_predicate t = RDFS_label \/ t_predicate t = RDF_type).

(** The values of [path_found] and [all_facts_triplets] when step 4 of
    [find_reasoning_path] starts, and the searches made in step 2. *)
Definition selected_path (ord : set_order) (question0 : string)
           (graph : Graph) : option path :=
  fst (select_path graph (_identify_all_entities ord question0 graph)).

Definition searches_made (ord : set_order) (question0 : string)
           (graph : Graph) : list (term * term) :=
  snd (select_path graph (_identify_all_entities ord question0 graph)).

Definition deduced_facts (ord : set_order) (question0 : string)
           (graph : Graph) : list triple :=
  collect_facts ord graph (_identify_all_entities ord question0 graph)
                (selected_path ord question0 graph).

(** [label.value] raises on a label that is not a literal; on a graph whose
    label objects are literals (or falsy) it never does. *)
Definition well_labelled (graph : Graph) : Prop :=
  forall t, In t graph -> t_predicate t = RDFS_label ->
            is_Literal (t_object t) = true \/ truthy (t_object t) = false.

(** Two interpreters that iterate every set in the same order. *)
Definition same_order (ord1 ord2 : set_order) : Prop :=
  forall (A : Type) (l : list A), iterate ord1 l = iterate ord2 l.

(** ** Python text by code points

    A text is the UTF-8 encoding of its code points.  [chars] cuts it into
    its code points: a lead byte with the continuation bytes that follow
    it. *)
Definition nl : string := String (ascii_of_nat 10) EmptyString.

Definition is_continuation (c : ascii) : bool :=
  let n := nat_of_ascii c in ((128 <=? n)%nat && (n <? 192)%nat)%bool.

(** The continuation bytes [s] starts with, and the code points after
    them. *)
Fixpoint split_chars (s : string) : string * list string :=
  match s with
  | EmptyString => (EmptyString, [])
  | String c rest =>
      let '(cont, cs) := split_chars rest in
      if is_continuation c then (String c cont, cs)
      else (EmptyString, String c cont :: cs)
  end.

Definition chars (s : string) : list string :=
  match split_chars s with
  | (EmptyString, cs) => cs
  | (cont, cs) => cont :: cs
  end.

(** [''.join(cs)] *)
Definition text (cs : list string) : string :=
  fold_right String.append EmptyString cs.

(** [sep.join(items)] *)
Fixpoint join (sep : string) (items : list string) : string :=
  match items with
  | [] => EmptyString
  | [x] => x
  | x :: rest => (x ++ sep ++ join sep rest)%string
  end.

(** [len(s)] and [s[n:]] *)
Definition py_len (s : string) : nat := List.length (chars s).
Definition slice_from (n : nat) (s : string) : string :=
  text (skipn n (chars s)).

Definition bytes (l : list nat) : string :=
  fold_right (fun n s => String (ascii_of_nat n) s) EmptyString l.

(** The code points on which [str.isspace] holds: U+0009..U+000D,
    U+001C..U+0020, U+0085, U+00A0, U+1680, U+2000..U+200A, U+2028,
    U+2029, U+202F, U+205F, U+3000. *)
Definition whitespace : list string :=
  map bytes
    [ [9]; [10]; [11]; [12]; [13]; [28]; [29]; [30]; [31]; [32];
      [194; 133]; [194; 160]; [225; 154; 128];
      [226; 128; 128]; [226; 128; 129]; [226; 128; 130]; [226; 128; 131];
      [226; 128; 132]; [226; 128; 133]; [226; 128; 134]; [226; 128; 135];
      [226; 128; 136]; [226; 128; 137]; [226; 128; 138];
      [226; 128; 168]; [226; 128; 169]; [226; 128; 175];
      [226; 129; 159]; [227; 128; 128] ].

Definition isspace (ch : string) : bool :=
  existsb (String.eqb ch) whitespace.

Fixpoint drop_while {A : Type} (f : A -> bool) (l : list A) : list A :=
  match l with
  | [] => []
  | x :: rest => if f x then drop_while f rest else l
  end.

(** The code points of [s.strip()]. *)
Definition strip_chars (cs : list string) : list string :=
  rev (drop_while isspace (rev (drop_while isspace cs))).

(** [s.strip()] *)
Definition strip (s : string) : string := text (strip_chars (chars s)).

(** ** Answers: [llm_response_generator.py] and
    [llm_enriched_prompt_generator.py] *)

Definition DEFAULT_HF_MODEL : string := "mistralai/Mixtral-8x7B-Instruct-v0.1".

Definition DEFAULT_ERROR_RESPONSE : string :=
  "Je suis désolé, je ne peux pas traiter cette demande pour le moment en raison d'un problème technique.".

Definition NO_FACT_RESPONSE : string :=
  "Le raisonneur n'a trouvé aucun fait pertinent dans l'ontologie pour répondre.".

Definition expert_prefix : string := "réponse d'expert:".

(** [clean_llm_nl_response].  The case test uses [lower]: capitals outside
    ASCII are compared as they are. *)
Definition clean_llm_nl_response (llm_output : string) : string :=
  match llm_output with
  | EmptyString => EmptyString
  | _ =>
      let cleaned_response := strip llm_output in
      if String.prefix expert_prefix (lower cleaned_response)
      then strip (slice_from (py_len expert_prefix) cleaned_response)
      else cleaned_response
  end.

(** The [prompt] of [generate_response_from_reasoning_path]. *)
Definition reasoning_prompt (question0 facts_str_for_prompt : string) : string :=
  ("Tu es un architecte HPC utilisant un graphe de connaissances certifié. Réponds EXCLUSIVEMENT en exploitant :" ++ nl
   ++ "- Les relations sémantiques du graphe (ex: :FalseSharing rdf:type :ProblemePerformance)" ++ nl
   ++ "- Les propriétés techniques (ex: :aTailleCacheLine, :aCompatibiliteCompilateurs)" ++ nl
   ++ "- Les exemples de code liés (via :aPourExemple)" ++ nl ++ nl
   ++ "### Question :" ++ nl ++ quote ++ question0 ++ quote ++ nl ++ nl
   ++ "### Contexte Structuré :" ++ nl ++ facts_str_for_prompt ++ nl ++ nl
   ++ "### Règles Stricts :" ++ nl
   ++ "1. **Exploitation des Relations** : Mentionne explicitement comment les concepts sont connectés dans l'ontologie." ++ nl
   ++ "    Ex: 'Le graphe lie :FalseSharing à :CacheLineAlignment via :estUneSolutionPour.'" ++ nl
   ++ "2. **Granularité Numérique** : Cite toujours les valeurs exactes (tailles de cache, padding, etc.)." ++ nl
   ++ "3. **Code et Commandes** : Intègre les snippets avec leur contexte ontologique." ++ nl
   ++ "    Ex: 'Comme montré dans :ExempleCodePaddingStruct (lié à :PaddingDeStruct), utilisez...'" ++ nl
   ++ "4. **Validation Croisée** : Corrèle chaque assertion avec un fait du graphe." ++ nl ++ nl
   ++ "**Style Requis** :" ++ nl
   ++ "- Texte continu mais avec segments courts et techniques." ++ nl
   ++ "- Termes clés en *italique* pour les concepts de l'ontologie." ++ nl
   ++ "- Citations explicites comme '[Graphe: :AMD_EPYC_9654 :aTailleCacheLine " ++ quote ++ "64 octets" ++ quote ++ "]'." ++ nl ++ nl
   ++ "Réponse :")%string.

(** The [prompt] of [generate_enriched_prompt_response]. *)
Definition enriched_prompt (question0 facts_context : string) : string :=
  ("Tu es un expert en calcul haute performance. Réponds STRICTEMENT en utilisant les faits techniques fournis "
   ++ "dans leur intégralité. Priorise la précision numérique et les références architecturales." ++ nl ++ nl
   ++ "### Question :" ++ nl ++ quote ++ question0 ++ quote ++ nl ++ nl
   ++ facts_context
   ++ "### Règles de Réponse :" ++ nl
   ++ "1. **Validation Croisée** : Corrèle chaque élément de réponse avec au moins un fait technique exact "
   ++ "(ex: taille de cache, alignement). Mentionne explicitement la source ('D'après [fait X]...')" ++ nl
   ++ "2. **Granularité** : Donne systématiquement :" ++ nl
   ++ "    - Valeurs numériques (ex: '64 octets' pas 'plusieurs octets')" ++ nl
   ++ "    - Compilateurs/versions concernés" ++ nl
   ++ "    - Contraintes architecturales (NUMA, hiérarchie mémoire)" ++ nl
   ++ "3. **Si Faits Insuffisants** : Réponds en 2 parties :" ++ nl
   ++ "    a) Limites des faits disponibles (ex: 'Manque la taille L3 pour EPYC 9654')" ++ nl
   ++ "    b) Réponse générique AVEC avertissement clair ('En l'absence de données spécifiques, théoriquement...')" ++ nl ++ nl
   ++ "**Format de Réponse Exigé** :" ++ nl
   ++ "- [ARCHITECTURE] AMD EPYC 9654 : <détails pertinents>" ++ nl
   ++ "- [SOLUTION] <technique> : <implémentation exacte>" ++ nl
   ++ "- [VALIDATION] <méthode de vérification> (perf, VTune...)" ++ nl ++ nl
   ++ "Réponse :")%string.

(** The [prompt] of [get_llm_direct_response]. *)
Definition direct_prompt (user_question : string) : string :=
  ("Répondez directement et concisement à la question suivante en français, en utilisant vos connaissances générales :" ++ nl
   ++ quote ++ user_question ++ quote)%string.

(** [facts_context] of [generate_enriched_prompt_response]. *)
Definition facts_context_of (retrieved_facts : list string) : string :=
  match retrieved_facts with
  | [] =>
      ("Aucun fait pertinent n'a été trouvé dans la base de connaissances pour étayer la réponse." ++ nl ++ nl)%string
  | _ =>
      let facts_str := join (nl ++ "- ") retrieved_facts in
      ("Informations potentiellement pertinentes extraites d'une base de connaissances :" ++ nl
       ++ "- " ++ facts_str ++ nl ++ nl)%string
  end.

(** The three answer functions call the inference API, which either fails
    ([None]) or yields the text of the model: the call, given the prompt and
    the model name, is a parameter. *)
Section Answers.
Variable call_hf_inference_api : string -> string -> option string.

Definition generate_response_from_reasoning_path (reasoning_result : report)
  : string :=
  let question0 := question reasoning_result in
  let deduced_facts := faits_deduits reasoning_result in
  match deduced_facts with
  | [] => NO_FACT_RESPONSE
  | _ =>
      let facts_str_for_prompt :=
        join nl (map (fun fact => ("- " ++ fact)%string) deduced_facts) in
      let prompt := reasoning_prompt question0 facts_str_for_prompt in
      match call_hf_inference_api prompt DEFAULT_HF_MODEL with
      | None => DEFAULT_ERROR_RESPONSE
      | Some generated_text => clean_llm_nl_response generated_text
      end
  end.

Definition get_llm_direct_response (user_question model_name : string)
  : string :=
  match call_hf_inference_api (direct_prompt user_question) model_name with
  | None => DEFAULT_ERROR_RESPONSE
  | Some generated_text => clean_llm_nl_response generated_text
  end.

Definition generate_enriched_prompt_response (question0 : string)
           (retrieved_facts : list string) (model_name : string) : string :=
  match question0 with
  | EmptyString => DEFAULT_ERROR_RESPONSE
  | _ =>
      let prompt :=
        enriched_prompt question0 (facts_context_of retrieved_facts) in
      match call_hf_inference_api prompt model_name with
      | None => DEFAULT_ERROR_RESPONSE
      | Some generated_text =>
          match clean_llm_nl_response generated_text with
          | EmptyString => DEFAULT_ERROR_RESPONSE
          | cleaned_answer => cleaned_answer
          end
      end
  end.
End Answers.

(** ** Notions used by the further statements *)

(** The synonym route of the resolver: a label of an entry whose keyword
    occurs in the lowercased question resolves to [e]. *)
Definition synonym_match (question0 : string) (graph : Graph) (e : term)
  : Prop :=
  exists keyword labels label_text,
    In (keyword, labels) synonym_map /\
    contains keyword (lower question0) = true /\
    In label_text labels /\
    resolves_to graph label_text e.

(** The direct route: [e] is a URI reference with a literal label whose
    lowercased text occurs in the lowercased question. *)
Definition direct_match (question0 : string) (graph : Graph) (e : term)
  : Prop :=
  exists label_text,
    In (e, RDFS_label, Literal label_text) graph /\
    is_URIRef e = true /\
    contains (lower label_text) (lower question0) = true.

(** The two routes for any lowercasing [str_lower]. *)
Definition synonym_match_with (str_lower : string -> string)
           (question0 : string) (graph : Graph) (e : term) : Prop :=
  exists keyword labels label_text,
    In (keyword, labels) synonym_map /\
    contains keyword (str_lower question0) = true /\
    In label_text labels /\
    resolves_to graph label_text e.

Definition direct_match_with (str_lower : string -> string)
           (question0 : string) (graph : Graph) (e : term) : Prop :=
  exists label_text,
    In (e, RDFS_label, Literal label_text) graph /\
    is_URIRef e = true /\
    contains (str_lower label_text) (str_lower question0) = true.

(** [c in s] for one character. *)
Fixpoint has_char (c : ascii) (s : string) : bool :=
  match s with
  | EmptyString => false
  | String x rest => Ascii.eqb x c || has_char c rest
  end.

(** A byte string made of continuation bytes only, and one code point. *)
Fixpoint all_continuation (s : string) : bool :=
  match s with
  | EmptyString => true
  | String c rest => is_continuation c && all_continuation rest
  end.

Definition code_point (ch : string) : bool :=
  match ch with
  | EmptyString => false
  | String c rest => negb (is_continuation c) && all_continuation rest
  end.

(** What [chars] yields: code points, after at most one run of stray
    continuation bytes. *)
Definition chars_ok (cs : list string) : Prop :=
  match cs with
  | [] => True
  | ch :: rest =>
      (code_point ch = true \/ (ch <> EmptyString /\ all_continuation ch = true))
      /\ Forall (fun c => code_point c = true) rest
  end.

(** No whitespace at either end. *)
Definition trimmed (cs : list string) : Prop :=
  cs = [] \/
  (isspace (hd EmptyString cs) = false /\
   isspace (List.last cs EmptyString) = false).

(** [part] is a run of consecutive elements of [whole]. *)
Definition segment {A : Type} (part whole : list A) : Prop :=
  exists before after, whole = before ++ part ++ after.

(** ** Fixtures *)

Module Fixture.
Definition A := URIRef "ex:A".
Definition B := URIRef "ex:B".
Definition C := URIRef "ex:C".
Definition rel := URIRef "ex:rel".
Definition via := URIRef "ex:via".

(** A direct edge A -> B next to the route A -> C -> B. *)
Definition direct_and_detour : Graph :=
  [ (A, via, C); (C, via, B); (A, rel, B) ].

(** A and B joined by one edge, stored from B to A. *)
Definition reversed_edge : Graph := [ (B, rel, A) ].

(** Two labelled entities that nothing joins. *)
Definition unrelated : Graph :=
  [ (A, RDFS_label, Literal "alpha"); (B, RDFS_label, Literal "beta") ].

Definition FalseSharing := URIRef "http://example.org/hpc#FalseSharing".
Definition CacheLineAlignment :=
  URIRef "http://example.org/hpc#CacheLineAlignment".
Definition estResoluPar := URIRef "http://example.org/hpc#estResoluPar".
Definition ProblemePerformance :=
  URIRef "http://example.org/hpc#ProblemePerformance".
Definition note := URIRef "http://example.org/hpc#note".

Definition ontology : Graph :=
  [ (FalseSharing, RDFS_label, Literal "False sharing");
    (FalseSharing, RDF_type, ProblemePerformance);
    (FalseSharing, estResoluPar, CacheLineAlignment);
    (CacheLineAlignment, RDFS_label, Literal "Cache line alignment");
    (CacheLineAlignment, note, Literal "64 bytes") ].

Definition question_two_entities : string :=
  "Does cache line alignment remove false sharing?".
Definition question_one_entity : string := "What is cache line alignment?".
Definition question_no_entity : string := "What time is it?".
Definition question_unrelated : string := "alpha and beta".

(** The report lines of the two label facts of [unrelated]. *)
Definition alpha_line : string :=
  ("alpha --[label]--> " ++ quote ++ "alpha" ++ quote)%string.
Definition beta_line : string :=
  ("beta --[label]--> " ++ quote ++ "beta" ++ quote)%string.

(** Two labelled entities joined by two routes of two hops, through C and
    through D.  The edges out of A list C first, the edges into B list D
    first. *)
Definition D := URIRef "ex:D".
Definition two_routes : Graph :=
  [ (A, RDFS_label, Literal "alpha"); (B, RDFS_label, Literal "beta");
    (A, via, C); (A, via, D); (D, via, B); (C, via, B) ].
Definition question_two_routes : string := "alpha and beta".

(** The report lines of the two facts of [CacheLineAlignment] in
    [ontology]. *)
Definition cache_label_line : string :=
  ("Cache line alignment --[label]--> "
   ++ quote ++ "Cache line alignment" ++ quote)%string.
Definition cache_note_line : string :=
  ("Cache line alignment --[note]--> " ++ quote ++ "64 bytes" ++ quote)%string.
End Fixture.

(** * Proofs *)

(** ** Membership and equality tests *)

Lemma term_eqb_true (a b : term) : term_eqb a b = true <-> a = b.
Proof.
  unfold term_eqb. destruct (term_eq_dec a b); split; congruence.
Qed.

Lemma term_eqb_false (a b : term) : term_eqb a b = false <-> a <> b.
Proof.
  unfold term_eqb. destruct (term_eq_dec a b); split; congruence.
Qed.

Lemma term_eqb_refl (a : term) : term_eqb a a = true.
Proof. now apply term_eqb_true. Qed.

Lemma mem_true (x : term) (xs : list term) : mem x xs = true <-> In x xs.
Proof.
  unfold mem. destruct (in_dec term_eq_dec x xs); split; auto; discriminate.
Qed.

Lemma mem_false (x : term) (xs : list term) : mem x xs = false <-> ~ In x xs.
Proof.
  unfold mem. destruct (in_dec term_eq_dec x xs); split; auto;
    try discriminate; contradiction.
Qed.

(** ** The neighbours offered to one iteration *)

Lemma in_outgoing (graph : Graph) (u n : term) (hop : triple) :
  In (n, hop) (outgoing graph u) <->
  In hop graph /\ t_subject hop = u /\ t_object hop = n.
Proof.
  unfold outgoing, predicate_objects. rewrite map_map, in_map_iff. split.
  - intros [[[s p] o] [E H]]. apply filter_In in H as [Hin Hs].
    apply term_eqb_true in Hs. cbn in *. inversion E; subst. auto.
  - intros (Hin & Hs & Ho). exists hop. destruct hop as [[s p] o].
    cbn in *. subst. split; [reflexivity|].
    apply filter_In. split; [assumption|]. apply term_eqb_refl.
Qed.

Lemma in_incoming (graph : Graph) (u n : term) (hop : triple) :
  In (n, hop) (incoming graph u) <->
  In hop graph /\ t_object hop = u /\ t_subject hop = n.
Proof.
  unfold incoming, subject_predicates. rewrite map_map, in_map_iff. split.
  - intros [[[s p] o] [E H]]. apply filter_In in H as [Hin Hs].
    apply term_eqb_true in Hs. cbn in *. inversion E; subst. auto.
  - intros (Hin & Ho & Hs). exists hop. destruct hop as [[s p] o].
    cbn in *. subst. split; [reflexivity|].
    apply filter_In. split; [assumption|]. apply term_eqb_refl.
Qed.

Lemma in_neighbours (graph : Graph) (u n : term) (hop : triple) :
  In (n, hop) (outgoing graph u ++ incoming graph u) <->
  hop_between graph u n hop.
Proof.
  rewrite in_app_iff, in_outgoing, in_incoming. unfold hop_between. tauto.
Qed.

(** ** One [for] loop *)

Lemma explore_app (e : term) (p : path) (c1 c2 : list (term * triple)) :
  forall queue visited,
    explore e p (c1 ++ c2) queue visited =
    match explore e p c1 queue visited with
    | inl r => inl r
    | inr (q1, v1) => explore e p c2 q1 v1
    end.
Proof.
  induction c1 as [|[n hop] c1 IH]; intros queue visited; cbn; [reflexivity|].
  destruct (is_URIRef n && negb (mem n visited)); [|apply IH].
  destruct (term_eqb n e); [reflexivity|apply IH].
Qed.

Lemma explore_found (e : term) (p : path) (cands : list (term * triple)) :
  forall queue visited new_path,
    explore e p cands queue visited = inl new_path ->
    exists hop, In (e, hop) cands /\ new_path = p ++ [hop]
                /\ is_URIRef e = true /\ ~ In e visited.
Proof.
  induction cands as [|[n hop] cands IH]; intros queue visited new_path;
    cbn; [discriminate|].
  destruct (is_URIRef n && negb (mem n visited)) eqn:G.
  - apply andb_true_iff in G as [Gu Gv].
    apply negb_true_iff, mem_false in Gv.
    destruct (term_eqb n e) eqn:E.
    + apply term_eqb_true in E. subst n. intros [= <-].
      exists hop. auto.
    + intros H. apply IH in H as (hop' & Hin & -> & Hu & Hv).
      exists hop'. repeat split; auto. intros Hc. apply Hv. now right.
  - intros H. apply IH in H as (hop' & Hin & -> & Hu & Hv).
    exists hop'. auto.
Qed.

Lemma explore_continue (e : term) (p : path) (cands : list (term * triple)) :
  forall queue visited queue' visited',
    explore e p cands queue visited = inr (queue', visited') ->
    exists news,
      queue' = queue ++ news /\
      (forall x, In x visited' <-> In x visited \/ In x (map fst news)) /\
      (forall x px, In (x, px) news ->
         exists hop, In (x, hop) cands /\ px = p ++ [hop] /\
                     is_URIRef x = true /\ ~ In x visited /\ x <> e) /\
      (forall n hop, In (n, hop) cands -> is_URIRef n = true ->
                     In n visited').
Proof.
  induction cands as [|[n hop] cands IH]; intros queue visited queue' visited';
    cbn.
  - intros [= <- <-]. exists []. rewrite app_nil_r. cbn.
    repeat split; tauto.
  - destruct (is_URIRef n && negb (mem n visited)) eqn:G.
    + apply andb_true_iff in G as [Gu Gv].
      apply negb_true_iff, mem_false in Gv.
      destruct (term_eqb n e) eqn:E; [discriminate|].
      apply term_eqb_false in E.
      intros H. apply IH in H as (news & -> & Hv & Hn & Hc).
      exists ((n, p ++ [hop]) :: news). rewrite <- app_assoc. cbn.
      split; [reflexivity|]. split; [|split].
      * intros x. rewrite Hv. cbn. tauto.
      * intros x px [[= <- <-]|Hin].
        -- exists hop. auto 6.
        -- apply Hn in Hin as (hop' & ? & ? & ? & Hnv & ?).
           exists hop'. repeat split; auto. intros Hx. apply Hnv. now right.
      * intros n' hop' [[= <- <-]|Hin] Hu.
        -- apply Hv. left. now left.
        -- eauto.
    + intros H. apply IH in H as (news & -> & Hv & Hn & Hc).
      exists news. split; [reflexivity|]. split; [assumption|]. split.
      * intros x px Hin. apply Hn in Hin as (hop' & ? & ? & ? & ? & ?).
        exists hop'. auto 6.
      * intros n' hop' [[= <- <-]|Hin] Hu; [|eauto].
        apply Hv. left. rewrite Hu in G. cbn in G.
        apply negb_false_iff, mem_true in G. exact G.
Qed.

(** ** The loop invariant *)

Section Search.
Variable graph : Graph.
Variables start_node end_node : term.

Local Abbreviation inv := (bfs_inv graph start_node end_node).
Local Abbreviation shorter :=
  (fun a b : task => hop_count (snd a) <= hop_count (snd b)).

Lemma hop_count_snoc (p : path) (t : triple) :
  hop_count (p ++ [t]) = S (hop_count p).
Proof. unfold hop_count. rewrite length_app. cbn. lia. Qed.

Lemma sorted_app (l1 l2 : list task) :
  StronglySorted shorter l1 -> StronglySorted shorter l2 ->
  (forall a b, In a l1 -> In b l2 -> shorter a b) ->
  StronglySorted shorter (l1 ++ l2).
Proof.
  induction l1 as [|a l1 IH]; intros S1 S2 Hc; cbn; [assumption|].
  apply StronglySorted_inv in S1 as [S1 Ha]. constructor.
  - apply IH; auto. intros; apply Hc; auto. now right.
  - apply Forall_app. split; [assumption|].
    apply Forall_forall. intros b Hb. apply Hc; auto. now left.
Qed.

Lemma sorted_level (d : nat) (l : list task) :
  (forall a, In a l -> hop_count (snd a) = d) -> StronglySorted shorter l.
Proof.
  induction l as [|a l IH]; intros H; constructor.
  - apply IH. intros; apply H. now right.
  - apply Forall_forall. intros b Hb.
    rewrite (H a), (H b); auto; [now right|now left].
Qed.

Lemma inv_init :
  start_node <> end_node -> inv [(start_node, [])] [start_node].
Proof.
  intros Hne. constructor.
  - now left.
  - intros [H|[]]. contradiction.
  - intros v p [[= <- <-]|[]]. split; [now left|].
    exists [start_node]. split; [constructor|]. split.
    + constructor; [intros []|constructor].
    + apply incl_refl.
  - repeat constructor.
  - intros a b [<-|[]] [<-|[]]. cbn. lia.
  - intros u [<-|[]] Hq. exfalso. apply Hq. now left.
  - intros v p [[= <- <-]|[]] nodes w _. cbn. lia.
Qed.

(** Every chain from the start either ends in a marked node or is longer
    than the path of some queued task. *)
Lemma frontier (queue : list task) (visited : list term) :
  inv queue visited ->
  forall x nodes w, walk graph start_node x nodes w ->
    In x visited \/
    exists v p, In (v, p) queue /\ hop_count p < hop_count w.
Proof.
  intros I x nodes w W. induction W as [|b c nodes t w W IH Hhop Hc].
  - left. apply (inv_start _ _ _ _ _ I).
  - rewrite hop_count_snoc. destruct IH as [Hb|(v & p & Hin & Hlt)].
    + destruct (in_dec term_eq_dec b (map fst queue)) as [Hq|Hq].
      * apply in_map_iff in Hq as [[b' q] [E Hq]]. cbn in E. subst b'.
        right. exists b, q. split; [assumption|].
        pose proof (inv_minimal _ _ _ _ _ I _ _ Hq _ _ W). lia.
      * left. eapply (inv_closed _ _ _ _ _ I); eauto.
    + right. exists v, p. split; [assumption|lia].
Qed.

Lemma head_shortest (a : task) (queue : list task) (visited : list term) :
  inv (a :: queue) visited ->
  forall b, In b (a :: queue) -> hop_count (snd a) <= hop_count (snd b).
Proof.
  intros I b [<-|Hb]; [lia|].
  pose proof (inv_sorted _ _ _ _ _ I) as S.
  apply StronglySorted_inv in S as [_ S].
  rewrite Forall_forall in S. now apply S.
Qed.

Lemma inv_step (current : term) (p0 : path) (queue : list task)
      (visited : list term) (queue2 : list task) (visited2 : list term) :
  inv ((current, p0) :: queue) visited ->
  explore end_node p0 (outgoing graph current ++ incoming graph current)
          queue visited = inr (queue2, visited2) ->
  inv queue2 visited2.
Proof.
  intros I H.
  apply explore_continue in H as (news & -> & Hv & Hn & Hc).
  assert (Hlevel : forall a, In a news -> hop_count (snd a) = S (hop_count p0)).
  { intros [x px] Hin. apply Hn in Hin as (hop & _ & -> & _). cbn.
    apply hop_count_snoc. }
  assert (Hlow : forall a, In a (queue ++ news) ->
                           hop_count p0 <= hop_count (snd a)).
  { intros a Ha. apply in_app_iff in Ha as [Ha|Ha].
    - apply (head_shortest _ _ _ I). now right.
    - rewrite (Hlevel a Ha). lia. }
  assert (Hhigh : forall a, In a (queue ++ news) ->
                            hop_count (snd a) <= S (hop_count p0)).
  { intros a Ha. apply in_app_iff in Ha as [Ha|Ha].
    - apply (inv_span _ _ _ _ _ I (current, p0) a); [now left|now right].
    - rewrite (Hlevel a Ha). lia. }
  constructor.
  - apply Hv. left. apply (inv_start _ _ _ _ _ I).
  - intros He. apply Hv in He as [He|He].
    + apply (inv_end _ _ _ _ _ I He).
    + apply in_map_iff in He as [[x px] [E Hin]]. cbn in E. subst x.
      apply Hn in Hin as (hop & _ & _ & _ & _ & Hne). now apply Hne.
  - intros v p Hin. apply in_app_iff in Hin as [Hin|Hin].
    + destruct (inv_tasks _ _ _ _ _ I v p) as (Hvis & nodes & W & ND & Hincl);
        [now right|].
      split; [apply Hv; now left|].
      exists nodes. repeat split; auto.
      intros y Hy. apply Hv. left. now apply Hincl.
    + split.
      { apply Hv. right. apply in_map_iff. now exists (v, p). }
      destruct (Hn _ _ Hin) as (hop & Hcand & -> & Hu & Hnv & _).
      apply in_neighbours in Hcand.
      destruct (inv_tasks _ _ _ _ _ I current p0) as (_ & nodes & W & ND & Hincl);
        [now left|].
      exists (nodes ++ [v]). split; [|split].
      * econstructor; eauto.
      * apply NoDup_app; [assumption|repeat constructor; intros []|].
        intros y Hy [<-|[]]. apply Hnv. now apply Hincl.
      * intros y Hy. apply in_app_iff in Hy as [Hy|[<-|[]]].
        -- apply Hv. left. now apply Hincl.
        -- apply Hv. right. apply in_map_iff. now exists (v, p0 ++ [hop]).
  - apply sorted_app.
    + pose proof (inv_sorted _ _ _ _ _ I) as S.
      now apply StronglySorted_inv in S as [S _].
    + now apply (sorted_level (S (hop_count p0))).
    + intros a b Ha Hb. rewrite (Hlevel b Hb). apply Hhigh.
      apply in_app_iff. now left.
  - intros a b Ha Hb. specialize (Hlow a Ha). specialize (Hhigh b Hb). lia.
  - intros u Hu Hq x t Hhop Hx. rewrite map_app, in_app_iff in Hq.
    apply Hv in Hu as [Hu|Hu]; [|tauto].
    destruct (term_eq_dec u current) as [->|Hne].
    + apply (Hc x t); [|assumption]. now apply in_neighbours.
    + apply Hv. left. apply (inv_closed _ _ _ _ _ I u Hu) with (t := t); auto.
      cbn. intros [E|Hq']; [congruence|tauto].
  - intros v p Hin nodes w W. apply in_app_iff in Hin as [Hin|Hin].
    + apply (inv_minimal _ _ _ _ _ I v p) with (nodes := nodes); auto.
      now right.
    + destruct (Hn _ _ Hin) as (hop & _ & -> & _ & Hnv & _).
      rewrite hop_count_snoc.
      destruct (frontier _ _ I _ _ _ W) as [Hvis|(v' & q & Hq & Hlt)];
        [contradiction|].
      pose proof (head_shortest _ _ _ I _ Hq) as Hs. cbn [snd] in Hs. lia.
Qed.

Lemma inv_found (current : term) (p0 : path) (queue : list task)
      (visited : list term) (new_path : path) :
  inv ((current, p0) :: queue) visited ->
  explore end_node p0 (outgoing graph current ++ incoming graph current)
          queue visited = inl new_path ->
  (exists nodes, walk graph start_node end_node nodes new_path
                 /\ NoDup nodes) /\
  (forall nodes w, walk graph start_node end_node nodes w ->
                   hop_count new_path <= hop_count w).
Proof.
  intros I H.
  apply explore_found in H as (hop & Hcand & -> & Hu & Hnv).
  apply in_neighbours in Hcand.
  assert (Hend : ~ In end_node visited) by apply (inv_end _ _ _ _ _ I).
  split.
  - destruct (inv_tasks _ _ _ _ _ I current p0) as (_ & nodes & W & ND & Hincl);
      [now left|].
    exists (nodes ++ [end_node]). split; [econstructor; eauto|].
    apply NoDup_app; [assumption|repeat constructor; intros []|].
    intros y Hy [<-|[]]. apply Hend. now apply Hincl.
  - intros nodes w W. rewrite hop_count_snoc.
    destruct (frontier _ _ I _ _ _ W) as [Hvis|(v' & q & Hq & Hlt)];
      [contradiction|].
    pose proof (head_shortest _ _ _ I _ Hq) as Hs. cbn [snd] in Hs. lia.
Qed.

Lemma bfs_loop_step (fuel : nat) (current : term) (p0 : path)
      (queue : list task) (visited : list term) :
  bfs_loop (S fuel) graph end_node ((current, p0) :: queue) visited =
  match explore end_node p0 (outgoing graph current ++ incoming graph current)
                queue visited with
  | inl new_path => Found new_path
  | inr (queue2, visited2) => bfs_loop fuel graph end_node queue2 visited2
  end.
Proof.
  cbn. rewrite explore_app.
  destruct (explore end_node p0 (outgoing graph current) queue visited)
    as [r|[q1 v1]]; reflexivity.
Qed.

Lemma bfs_loop_found (fuel : nat) :
  forall queue visited p,
    inv queue visited ->
    bfs_loop fuel graph end_node queue visited = Found p ->
    (exists nodes, walk graph start_node end_node nodes p /\ NoDup nodes) /\
    (forall nodes w, walk graph start_node end_node nodes w ->
                     hop_count p <= hop_count w).
Proof.
  induction fuel as [|fuel IH]; intros queue visited p I; [discriminate|].
  destruct queue as [|[current p0] queue]; [discriminate|].
  rewrite bfs_loop_step.
  destruct (explore end_node p0 _ queue visited) as [r|[q2 v2]] eqn:E.
  - intros [= <-]. eapply inv_found; eauto.
  - apply IH. eapply inv_step; eauto.
Qed.

Lemma bfs_loop_nopath (fuel : nat) :
  forall queue visited,
    inv queue visited ->
    bfs_loop fuel graph end_node queue visited = NoPath ->
    forall nodes w, ~ walk graph start_node end_node nodes w.
Proof.
  induction fuel as [|fuel IH]; intros queue visited I; [discriminate|].
  destruct queue as [|[current p0] queue].
  - intros _ nodes w W.
    destruct (frontier _ _ I _ _ _ W) as [Hvis|(v & q & [] & _)].
    apply (inv_end _ _ _ _ _ I Hvis).
  - rewrite bfs_loop_step.
    destruct (explore end_node p0 _ queue visited) as [r|[q2 v2]] eqn:E;
      [discriminate|].
    apply IH. eapply inv_step; eauto.
Qed.

End Search.

(** ** The loop ends within [search_fuel] iterations *)

Lemma unmarked_mark (n : term) (visited : list term) (l : list term) :
  List.length (filter (fun x => negb (mem x (n :: visited))) l) <=
  List.length (filter (fun x => negb (mem x visited)) l).
Proof.
  induction l as [|a l IH]; cbn [filter]; [lia|].
  destruct (mem a visited) eqn:Ev.
  - assert (Ea : mem a (n :: visited) = true).
    { apply mem_true. right. now apply mem_true. }
    rewrite Ea. cbn. exact IH.
  - destruct (mem a (n :: visited)); cbn; lia.
Qed.

Lemma unmarked_mark_new (n : term) (visited : list term) (l : list term) :
  In n l -> ~ In n visited ->
  List.length (filter (fun x => negb (mem x (n :: visited))) l) <
  List.length (filter (fun x => negb (mem x visited)) l).
Proof.
  intros Hin Hnv. induction l as [|a l IH]; [destruct Hin|].
  cbn [filter]. destruct (term_eq_dec a n) as [->|Hne].
  - assert (E1 : mem n (n :: visited) = true) by (apply mem_true; now left).
    assert (E2 : mem n visited = false) by now apply mem_false.
    rewrite E1, E2. cbn. pose proof (unmarked_mark n visited l). lia.
  - destruct Hin as [->|Hin]; [contradiction|]. specialize (IH Hin).
    destruct (mem a visited) eqn:Ev.
    + assert (Ea : mem a (n :: visited) = true).
      { apply mem_true. right. now apply mem_true. }
      rewrite Ea. cbn. exact IH.
    + destruct (mem a (n :: visited)); cbn; lia.
Qed.

Lemma explore_measure (graph : Graph) (e : term) (p : path)
      (cands : list (term * triple)) :
  forall queue visited queue' visited',
    (forall n hop, In (n, hop) cands ->
                   In n (map t_subject graph ++ map t_object graph)) ->
    explore e p cands queue visited = inr (queue', visited') ->
    List.length queue' + unvisited graph visited' <=
    List.length queue + unvisited graph visited.
Proof.
  induction cands as [|[n hop] cands IH]; intros queue visited queue' visited' Hn;
    cbn.
  - intros [= <- <-]. lia.
  - assert (Hn' : forall n hop, In (n, hop) cands ->
                    In n (map t_subject graph ++ map t_object graph)).
    { intros; eapply Hn; right; eauto. }
    destruct (is_URIRef n && negb (mem n visited)) eqn:G; [|now apply IH].
    apply andb_true_iff in G as [_ Gv].
    apply negb_true_iff, mem_false in Gv.
    destruct (term_eqb n e); [discriminate|].
    intros H. apply IH in H; [|assumption].
    rewrite length_app in H. cbn in H.
    assert (Hlt : unvisited graph (n :: visited) < unvisited graph visited).
    { apply unmarked_mark_new; [|assumption]. apply (Hn n hop). now left. }
    lia.
Qed.

Lemma neighbours_are_nodes (graph : Graph) (u n : term) (hop : triple) :
  In (n, hop) (outgoing graph u ++ incoming graph u) ->
  In n (map t_subject graph ++ map t_object graph).
Proof.
  intros H. apply in_neighbours in H as [Hin [[_ <-]|[<- _]]];
    apply in_app_iff; [right|left]; now apply in_map.
Qed.

Lemma bfs_loop_terminates (graph : Graph) (e : term) (fuel : nat) :
  forall queue visited,
    List.length queue + unvisited graph visited < fuel ->
    bfs_loop fuel graph e queue visited <> OutOfFuel.
Proof.
  induction fuel as [|fuel IH]; intros queue visited Hm; [lia|].
  destruct queue as [|[current p0] queue]; [discriminate|].
  rewrite bfs_loop_step.
  destruct (explore e p0 _ queue visited) as [r|[q2 v2]] eqn:E;
    [discriminate|].
  apply IH. apply explore_measure with (graph := graph) in E.
  - cbn in Hm. lia.
  - intros n hop. apply neighbours_are_nodes.
Qed.

Lemma unvisited_bound (graph : Graph) (visited : list term) :
  unvisited graph visited <= 2 * List.length graph.
Proof.
  unfold unvisited.
  etransitivity; [apply filter_length_le|].
  rewrite length_app, !length_map. lia.
Qed.

Lemma search_completes (graph : Graph) (start_node end_node : term) :
  bfs_loop (search_fuel graph) graph end_node
           [(start_node, [])] [start_node] <> OutOfFuel.
Proof.
  apply bfs_loop_terminates. unfold search_fuel. cbn [List.length].
  pose proof (unvisited_bound graph [start_node]). lia.
Qed.

(** ** Chains *)

Lemma walk_no_hops (graph : Graph) (a b : term) (nodes : list term) :
  walk graph a b nodes [] -> b = a /\ nodes = [a].
Proof.
  intros W. inversion W as [|b' c nodes' t hops W' Hh Hc Ec En Eh]; [auto|].
  destruct hops; discriminate.
Qed.

Lemma walk_last_hop (graph : Graph) (a c : term) (nodes : list term)
      (hops : path) (t : triple) :
  walk graph a c nodes (hops ++ [t]) ->
  exists b nodes', walk graph a b nodes' hops /\ hop_between graph b c t
                   /\ is_URIRef c = true /\ nodes = nodes' ++ [c].
Proof.
  intros W. inversion W as [E|b c' nodes' t' hops' W' Hh Hc Ec En Eh].
  - destruct hops; discriminate.
  - apply app_inj_tail in Eh as [-> ->]. subst. eauto 8.
Qed.

Lemma walk_shape (graph : Graph) (a b : term) (nodes : list term) (hops : path) :
  walk graph a b nodes hops ->
  is_URIRef a = true ->
  List.length nodes = S (hop_count hops) /\
  Forall (fun n => is_URIRef n = true) nodes /\
  Forall (fun t => In t graph /\ In (t_subject t) nodes /\ In (t_object t) nodes
                   /\ is_URIRef (t_subject t) = true
                   /\ is_URIRef (t_object t) = true) hops.
Proof.
  intros W Ha. induction W as [|b c nodes t hops W IH Hh Hc].
  - repeat split; repeat constructor. exact Ha.
  - destruct IH as (Hlen & Hnodes & Hhops).
    assert (Hb : In b nodes /\ is_URIRef b = true).
    { clear -W Ha Hnodes. rewrite Forall_forall in Hnodes.
      assert (In b nodes).
      { destruct W; [now left|]. apply in_app_iff. right. now left. }
      auto. }
    destruct Hb as [Hbin Hbu].
    rewrite length_app, hop_count_snoc. cbn. split; [lia|]. split.
    + apply Forall_app. split; [assumption|]. now repeat constructor.
    + apply Forall_app. split.
      * eapply Forall_impl; [|exact Hhops]. cbn.
        intros t' (? & ? & ? & ? & ?). repeat split; auto;
          apply in_app_iff; now left.
      * constructor; [|constructor].
        destruct Hh as [Hin [[Hs Ho]|[Hs Ho]]]; rewrite Hs, Ho;
          repeat split; auto; apply in_app_iff; auto; right; now left.
Qed.

(** ** What [_find_shortest_path] returns *)

Lemma find_same_node (graph : Graph) (a : term) :
  _find_shortest_path graph a a = Some [].
Proof. unfold _find_shortest_path. now rewrite term_eqb_refl. Qed.

Lemma find_distinct (graph : Graph) (start_node end_node : term) :
  start_node <> end_node ->
  (exists p, _find_shortest_path graph start_node end_node = Some p /\
             bfs_loop (search_fuel graph) graph end_node
                      [(start_node, [])] [start_node] = Found p) \/
  (_find_shortest_path graph start_node end_node = None /\
   bfs_loop (search_fuel graph) graph end_node
            [(start_node, [])] [start_node] = NoPath).
Proof.
  intros Hne. unfold _find_shortest_path.
  apply term_eqb_false in Hne. rewrite Hne.
  pose proof (search_completes graph start_node end_node) as T.
  destruct (bfs_loop _ _ _ _ _) as [p| |]; [left; eauto|right; auto|congruence].
Qed.

Lemma find_sound (graph : Graph) (start_node end_node : term) (p : path) :
  _find_shortest_path graph start_node end_node = Some p ->
  exists nodes, walk graph start_node end_node nodes p /\ NoDup nodes.
Proof.
  destruct (term_eq_dec start_node end_node) as [<-|Hne].
  - rewrite find_same_node. intros [= <-]. exists [start_node].
    split; [constructor|]. constructor; [intros []|constructor].
  - destruct (find_distinct graph _ _ Hne) as [(p' & -> & L)|[-> _]];
      [|discriminate].
    intros [= ->]. eapply bfs_loop_found; eauto. now apply inv_init.
Qed.

Lemma find_minimal (graph : Graph) (start_node end_node : term) (p : path) :
  _find_shortest_path graph start_node end_node = Some p ->
  forall w, connection graph start_node end_node w ->
            hop_count p <= hop_count w.
Proof.
  destruct (term_eq_dec start_node end_node) as [<-|Hne].
  - rewrite find_same_node. intros [= <-] w _. cbn. lia.
  - destruct (find_distinct graph _ _ Hne) as [(p' & -> & L)|[-> _]];
      [|discriminate].
    intros [= ->] w [nodes W].
    eapply bfs_loop_found; eauto. now apply inv_init.
Qed.

Lemma find_complete (graph : Graph) (start_node end_node : term) (w : path) :
  connection graph start_node end_node w ->
  exists p, _find_shortest_path graph start_node end_node = Some p.
Proof.
  intros [nodes W]. destruct (term_eq_dec start_node end_node) as [<-|Hne].
  - rewrite find_same_node. eauto.
  - destruct (find_distinct graph _ _ Hne) as [(p' & -> & L)|[_ L]];
      [eauto|].
    exfalso. eapply bfs_loop_nopath; eauto. now apply inv_init.
Qed.

Lemma find_one_hop (graph : Graph) (a b : term) (t0 : triple) :
  a <> b -> is_URIRef b = true -> hop_between graph a b t0 ->
  exists t, _find_shortest_path graph a b = Some [t] /\ hop_between graph a b t.
Proof.
  intros Hne Hb Hh.
  assert (C : connection graph a b [t0]).
  { exists ([a] ++ [b]). apply (walk_snoc graph a a b [a] t0 []); auto.
    constructor. }
  destruct (find_complete _ _ _ _ C) as [p Hp].
  pose proof (find_minimal _ _ _ _ Hp _ C) as Hmin.
  destruct (find_sound _ _ _ _ Hp) as (nodes & W & _).
  destruct p as [|t p] using rev_ind.
  - apply walk_no_hops in W as [E _]. congruence.
  - clear IHp. rewrite hop_count_snoc in Hmin. cbn in Hmin.
    destruct p; [|cbn in Hmin; lia].
    apply (walk_last_hop graph a b nodes [] t) in W
      as (b' & nodes' & W' & Hh' & _ & _).
    apply walk_no_hops in W' as [-> _]. exists t. auto.
Qed.

(** ** The fixtures, run *)

Example direct_edge_wins :
  _find_shortest_path Fixture.direct_and_detour Fixture.A Fixture.B
  = Some [(Fixture.A, Fixture.rel, Fixture.B)].
Proof. reflexivity. Qed.

Example detour_is_a_connection :
  connection Fixture.direct_and_detour Fixture.A Fixture.B
             [(Fixture.A, Fixture.via, Fixture.C);
              (Fixture.C, Fixture.via, Fixture.B)].
Proof.
  exists (([Fixture.A] ++ [Fixture.C]) ++ [Fixture.B]).
  apply (walk_snoc _ _ Fixture.C Fixture.B _ _
                   ([] ++ [(Fixture.A, Fixture.via, Fixture.C)])).
  - apply (walk_snoc _ _ Fixture.A Fixture.C [Fixture.A] _ []).
    + constructor.
    + split; [now left|]. left. split; reflexivity.
    + reflexivity.
  - split; [right; now left|]. left. split; reflexivity.
  - reflexivity.
Qed.

Example search_in_both_directions :
  _find_shortest_path Fixture.reversed_edge Fixture.A Fixture.B
  = Some [(Fixture.B, Fixture.rel, Fixture.A)] /\
  _find_shortest_path Fixture.reversed_edge Fixture.B Fixture.A
  = Some [(Fixture.B, Fixture.rel, Fixture.A)].
Proof. split; reflexivity. Qed.

Example shared_literal_does_not_connect :
  _find_shortest_path
    [ (Fixture.A, Fixture.rel, Literal "64 bytes");
      (Fixture.B, Fixture.rel, Literal "64 bytes") ]
    Fixture.A Fixture.B = None.
Proof. reflexivity. Qed.

Example blank_node_does_not_connect :
  _find_shortest_path
    [ (Fixture.A, Fixture.rel, BNode "b0");
      (BNode "b0", Fixture.rel, Fixture.B) ]
    Fixture.A Fixture.B = None.
Proof. reflexivity. Qed.

(** ** Claims on the path search *)

(** C1.  For distinct start and end entities, a path returned by the search
    is a connection of the two in the graph and no undirected connection of
    them (a chain of stored triples through entities, each triple taken in
    either direction) has fewer hops.  In particular, when the graph stores
    an edge from the start to the end, the search returns one hop joining
    the two, whatever longer routes exist beside it. *)
Theorem shortest_path_is_minimal (graph : Graph) (start_node end_node : term) :
  start_node <> end_node ->
  (forall p, _find_shortest_path graph start_node end_node = Some p ->
     connection graph start_node end_node p /\
     forall w, connection graph start_node end_node w ->
               hop_count p <= hop_count w) /\
  (forall rel, is_URIRef end_node = true ->
     In (start_node, rel, end_node) graph ->
     (exists t, _find_shortest_path graph start_node end_node = Some [t]
                /\ hop_between graph start_node end_node t) /\
     ((forall t, hop_between graph start_node end_node t ->
                 t = (start_node, rel, end_node)) ->
      _find_shortest_path graph start_node end_node
      = Some [(start_node, rel, end_node)])).
Proof.
  intros Hne. split.
  - intros p Hp. split.
    + destruct (find_sound _ _ _ _ Hp) as (nodes & W & _). now exists nodes.
    + now apply find_minimal.
  - intros rel Hu Hin.
    assert (Hh : hop_between graph start_node end_node
                             (start_node, rel, end_node)).
    { split; [assumption|]. left. split; reflexivity. }
    destruct (find_one_hop _ _ _ _ Hne Hu Hh) as (t & Ht & Hht).
    split; [eauto|]. intros Huniq. now rewrite Ht, (Huniq t Hht).
Qed.

Lemma shortest_path_is_minimal_witness :
  Fixture.A <> Fixture.B /\
  _find_shortest_path Fixture.direct_and_detour Fixture.A Fixture.B
  = Some [(Fixture.A, Fixture.rel, Fixture.B)] /\
  forall w, connection Fixture.direct_and_detour Fixture.A Fixture.B w ->
            1 <= hop_count w.
Proof.
  assert (Hne : Fixture.A <> Fixture.B) by discriminate.
  split; [exact Hne|]. split; [reflexivity|].
  destruct (shortest_path_is_minimal Fixture.direct_and_detour
              Fixture.A Fixture.B Hne) as [Hmin _].
  destruct (Hmin [(Fixture.A, Fixture.rel, Fixture.B)] eq_refl) as [_ H].
  exact H.
Defined.

(** C5.  When the only triple joining A and B is stored as (B, rel, A), the
    search from A to B returns the one-hop path made of that triple, in its
    stored direction. *)
Theorem reversed_edge_is_found (graph : Graph) (a b rel : term) :
  a <> b ->
  is_URIRef b = true ->
  In (b, rel, a) graph ->
  (forall t, hop_between graph a b t -> t = (b, rel, a)) ->
  _find_shortest_path graph a b = Some [(b, rel, a)].
Proof.
  intros Hne Hu Hin Huniq.
  assert (Hh : hop_between graph a b (b, rel, a)).
  { split; [assumption|]. right. split; reflexivity. }
  destruct (find_one_hop _ _ _ _ Hne Hu Hh) as (t & Ht & Hht).
  now rewrite Ht, (Huniq t Hht).
Qed.

Lemma reversed_edge_is_found_witness :
  _find_shortest_path Fixture.reversed_edge Fixture.A Fixture.B
  = Some [(Fixture.B, Fixture.rel, Fixture.A)].
Proof.
  apply reversed_edge_is_found.
  - discriminate.
  - reflexivity.
  - now left.
  - intros t [[<-|[]] _]. reflexivity.
Defined.

(** C6.  The search from a node to itself returns the empty path, whatever
    the graph holds.  The search returns [None] exactly when no connection
    exists; the loop has then run until its queue was empty.  [None] is not
    the empty path. *)
Theorem no_path_is_not_empty_path :
  (forall graph a, _find_shortest_path graph a a = Some []) /\
  (forall graph start_node end_node,
     _find_shortest_path graph start_node end_node = None <->
     ~ exists w, connection graph start_node end_node w) /\
  (forall graph start_node end_node,
     _find_shortest_path graph start_node end_node = None ->
     start_node <> end_node /\
     bfs_loop (search_fuel graph) graph end_node
              [(start_node, [])] [start_node] = NoPath) /\
  @None path <> Some [].
Proof.
  split; [exact find_same_node|]. split; [|split; [|discriminate]].
  - intros graph s e. split.
    + intros HN [w C]. destruct (find_complete _ _ _ _ C) as [p Hp].
      congruence.
    + intros HC.
      destruct (_find_shortest_path graph s e) as [p|] eqn:E; [|reflexivity].
      exfalso. apply HC. exists p.
      destruct (find_sound _ _ _ _ E) as (nodes & W & _). now exists nodes.
  - intros graph s e HN.
    destruct (term_eq_dec s e) as [<-|Hne].
    + rewrite find_same_node in HN. discriminate.
    + split; [assumption|].
      destruct (find_distinct graph _ _ Hne) as [(p & Hp & _)|[_ L]];
        congruence.
Qed.

(** C10.  A path returned by a search that starts from an entity is a chain
    of triples of the graph that passes through pairwise different nodes,
    all of them entities (URI references): the subject and the object of
    every triple of the path are URI references. *)
Theorem returned_path_is_simple_chain (graph : Graph)
        (start_node end_node : term) (p : path) :
  is_URIRef start_node = true ->
  _find_shortest_path graph start_node end_node = Some p ->
  exists nodes,
    walk graph start_node end_node nodes p /\
    NoDup nodes /\
    List.length nodes = S (hop_count p) /\
    Forall (fun n => is_URIRef n = true) nodes /\
    Forall (fun t => In t graph /\
                     In (t_subject t) nodes /\ In (t_object t) nodes /\
                     is_URIRef (t_subject t) = true /\
                     is_URIRef (t_object t) = true) p.
Proof.
  intros Hu Hp. destruct (find_sound _ _ _ _ Hp) as (nodes & W & ND).
  exists nodes. destruct (walk_shape _ _ _ _ _ W Hu) as (Hlen & Hn & Hh).
  auto.
Qed.

Lemma returned_path_is_simple_chain_witness :
  exists nodes,
    walk Fixture.direct_and_detour Fixture.C Fixture.B nodes
         [(Fixture.C, Fixture.via, Fixture.B)] /\
    NoDup nodes /\
    List.length nodes = 2 /\
    Forall (fun n => is_URIRef n = true) nodes /\
    Forall (fun t => In t Fixture.direct_and_detour /\
                     In (t_subject t) nodes /\ In (t_object t) nodes /\
                     is_URIRef (t_subject t) = true /\
                     is_URIRef (t_object t) = true)
           [(Fixture.C, Fixture.via, Fixture.B)].
Proof.
  apply (returned_path_is_simple_chain Fixture.direct_and_detour
           Fixture.C Fixture.B); reflexivity.
Defined.

(** ** Python sets *)

Section PySetFacts.
Context {A : Type} (eq_dec : forall a b : A, {a = b} + {a <> b}).

Lemma set_add_in (x y : A) (s : list A) :
  In y (set_add eq_dec x s) <-> In y s \/ y = x.
Proof.
  unfold set_add. destruct (in_dec eq_dec x s) as [Hin|Hnin].
  - split; [auto|]. intros [H| ->]; assumption.
  - rewrite in_app_iff. cbn. intuition congruence.
Qed.

Lemma set_add_nodup (x : A) (s : list A) :
  NoDup s -> NoDup (set_add eq_dec x s).
Proof.
  intros ND. unfold set_add. destruct (in_dec eq_dec x s) as [Hin|Hnin];
    [assumption|].
  apply NoDup_app; [assumption|repeat constructor; intros []|].
  intros a Ha [<-|[]]. contradiction.
Qed.

Lemma set_update_in (xs : list A) :
  forall (s : list A) (y : A),
    In y (set_update eq_dec s xs) <-> In y s \/ In y xs.
Proof.
  unfold set_update. induction xs as [|x xs IH]; intros s y; cbn.
  - tauto.
  - rewrite IH, set_add_in. intuition congruence.
Qed.

Lemma set_update_nodup (xs : list A) :
  forall s : list A, NoDup s -> NoDup (set_update eq_dec s xs).
Proof.
  unfold set_update. induction xs as [|x xs IH]; intros s ND; cbn;
    [assumption|].
  apply IH. now apply set_add_nodup.
Qed.

End PySetFacts.

Lemma iterate_in (ord : set_order) {A : Type} (l : list A) (x : A) :
  In x (iterate ord l) <-> In x l.
Proof.
  pose proof (iterate_perm ord A l) as P. split; intros H.
  - eapply Permutation_in; [apply Permutation_sym; exact P|exact H].
  - eapply Permutation_in; eauto.
Qed.

Lemma iterate_nodup (ord : set_order) {A : Type} (l : list A) :
  NoDup l -> NoDup (iterate ord l).
Proof. apply Permutation_NoDup, iterate_perm. Qed.

Lemma iterate_length (ord : set_order) {A : Type} (l : list A) :
  List.length (iterate ord l) = List.length l.
Proof. symmetry. apply Permutation_length, iterate_perm. Qed.

(** ** The resolver *)

Lemma add_synonym_label_in (graph : Graph) (found : list term)
      (label_text : string) (e : term) :
  In e (add_synonym_label graph found label_text) <->
  In e found \/ resolves_to graph label_text e.
Proof.
  unfold add_synonym_label, resolves_to.
  destruct (value_subject graph RDFS_label (Literal label_text)) as [s|].
  - destruct (truthy s && is_URIRef s) eqn:G.
    + apply andb_true_iff in G as [G1 G2]. rewrite set_add_in. split.
      * intros [H| ->]; auto.
      * intros [H|([= ->] & _)]; auto.
    + split; [auto|]. intros [H|([= ->] & G1 & G2)]; [assumption|].
      rewrite G1, G2 in G. discriminate.
  - split; [auto|]. intros [H|([=] & _)]. assumption.
Qed.

Lemma synonym_labels_in (graph : Graph) (labels : list string) :
  forall (found : list term) (e : term),
    In e (fold_left (add_synonym_label graph) labels found) <->
    In e found \/
    exists label_text, In label_text labels /\ resolves_to graph label_text e.
Proof.
  induction labels as [|l labels IH]; intros found e; cbn.
  - split; [auto|]. intros [H|(? & [] & _)]. assumption.
  - rewrite IH, add_synonym_label_in. split.
    + intros [[H|H]|(l' & H1 & H2)]; eauto 6.
    + intros [H|(l' & [<-|H1] & H2)]; eauto 6.
Qed.

Lemma synonym_entries_in (question_lower : string) (graph : Graph)
      (entries : list (string * list string)) :
  forall (found : list term) (e : term),
    In e (fold_left
            (fun found entry =>
               if contains (fst entry) question_lower
               then fold_left (add_synonym_label graph) (snd entry) found
               else found)
            entries found) <->
    In e found \/
    exists keyword labels label_text,
      In (keyword, labels) entries /\
      contains keyword question_lower = true /\
      In label_text labels /\ resolves_to graph label_text e.
Proof.
  induction entries as [|[k ls] entries IH]; intros found e; cbn.
  - split; [auto|]. intros [H|(? & ? & ? & [] & _)]. assumption.
  - rewrite IH. destruct (contains k question_lower) eqn:C.
    + rewrite synonym_labels_in. split.
      * intros [[H|(l & H1 & H2)]|(k' & ls' & l & H1 & H2)];
          [auto|eauto 10|].
        right. exists k', ls', l. tauto.
      * intros [H|(k' & ls' & l & [[= <- <-]|H1] & H2 & H3 & H4)]; eauto 10.
    + split.
      * intros [H|(k' & ls' & l & H1 & H2)]; [auto|].
        right. exists k', ls', l. tauto.
      * intros [H|(k' & ls' & l & [[= <- <-]|H1] & H2 & H3 & H4)];
          [auto|congruence|eauto 10].
Qed.

(** C8.  After the synonym pass the found set holds an entity exactly when
    some label of a synonym entry whose keyword occurs in the lowercased
    question resolves to it: its reverse-label lookup returns a subject that
    is not empty and is a URI reference.  A label whose lookup returns
    nothing leaves the found set as it was. *)
Theorem synonym_pass_accepts_resolved_labels (question0 : string)
        (graph : Graph) :
  (forall e,
     In e (synonym_pass (lower question0) graph []) <->
     exists keyword labels label_text,
       In (keyword, labels) synonym_map /\
       contains keyword (lower question0) = true /\
       In label_text labels /\
       value_subject graph RDFS_label (Literal label_text) = Some e /\
       truthy e = true /\ is_URIRef e = true) /\
  (forall found label_text,
     value_subject graph RDFS_label (Literal label_text) = None ->
     add_synonym_label graph found label_text = found).
Proof.
  split.
  - intros e. unfold synonym_pass. rewrite synonym_entries_in. split.
    + intros [[]|H]. exact H.
    + auto.
  - intros found label_text H. unfold add_synonym_label. now rewrite H.
Qed.

Lemma fold_left_preserves {A B : Type} (f : A -> B -> A) (P : A -> Prop) :
  (forall a b, P a -> P (f a b)) ->
  forall l a, P a -> P (fold_left f l a).
Proof.
  intros Hf l. induction l as [|b l IH]; intros a Ha; cbn; auto.
Qed.

Lemma entity_set_add (e : term) (found : list term) :
  is_URIRef e = true -> entity_set found ->
  entity_set (set_add term_eq_dec e found).
Proof.
  intros Hu [ND HU]. split; [now apply set_add_nodup|].
  intros x Hx. apply set_add_in in Hx as [Hx| ->]; auto.
Qed.

Lemma found_entities_entity_set (question0 : string) (graph : Graph) :
  entity_set (found_entities question0 graph).
Proof.
  unfold found_entities, direct_label_pass, synonym_pass.
  apply fold_left_preserves.
  - intros found t Hf. cbn.
    destruct (is_URIRef (t_subject t) && is_Literal (t_object t)) eqn:G;
      [|assumption].
    apply andb_true_iff in G as [G _].
    destruct (contains _ _); [|assumption].
    destruct (mem _ _); [assumption|]. now apply entity_set_add.
  - apply fold_left_preserves.
    + intros found [k ls] Hf. cbn. destruct (contains _ _); [|assumption].
      apply fold_left_preserves; [|assumption].
      intros found' l Hf'. unfold add_synonym_label.
      destruct (value_subject _ _ _) as [s|]; [|assumption].
      destruct (truthy s && is_URIRef s) eqn:G; [|assumption].
      apply andb_true_iff in G as [_ G]. now apply entity_set_add.
    + split; [constructor|intros ? []].
Qed.

Lemma identified_entity_set (ord : set_order) (question0 : string)
      (graph : Graph) :
  entity_set (_identify_all_entities ord question0 graph).
Proof.
  destruct (found_entities_entity_set question0 graph) as [ND HU].
  unfold _identify_all_entities. split.
  - now apply iterate_nodup.
  - intros e He. apply HU. now apply iterate_in in He.
Qed.

(** ** Pair selection *)

Lemma pairs_from_in {A : Type} (after : list A) :
  forall (before : list A) (a b : A),
    NoDup (before ++ after) ->
    (In (a, b) (pairs_from before after) <->
     In a after /\ In b (before ++ after) /\ a <> b).
Proof.
  induction after as [|x rest IH]; intros before a b ND; cbn.
  - tauto.
  - assert (ND' : NoDup ((before ++ [x]) ++ rest))
      by now rewrite <- app_assoc.
    rewrite in_app_iff, in_map_iff, (IH (before ++ [x]) a b ND').
    rewrite <- app_assoc. cbn.
    pose proof (NoDup_remove_2 _ _ _ ND) as Hx.
    rewrite !in_app_iff in *. cbn. split.
    + intros [(y & [= -> ->] & Hy)|(Ha & Hb & Hab)].
      * apply in_app_iff in Hy. split; [now left|]. split; [tauto|].
        intros ->. tauto.
      * tauto.
    + intros ([->|Ha] & Hb & Hab).
      * left. exists b. split; [reflexivity|]. apply in_app_iff.
        destruct Hb as [Hb|[Hb|Hb]]; [tauto|congruence|tauto].
      * right. tauto.
Qed.

Lemma permutations2_in {A : Type} (xs : list A) (a b : A) :
  NoDup xs ->
  (In (a, b) (permutations2 xs) <-> In a xs /\ In b xs /\ a <> b).
Proof. intros ND. unfold permutations2. now rewrite pairs_from_in. Qed.

Lemma try_pairs_spec (graph : Graph) (pairs : list (term * term)) :
  forall init, path_truthy init = false ->
    exists rest, pairs = snd (try_pairs graph pairs init) ++ rest /\
      ((path_truthy (fst (try_pairs graph pairs init)) = true /\
        exists before s e,
          snd (try_pairs graph pairs init) = before ++ [(s, e)] /\
          fst (try_pairs graph pairs init) = _find_shortest_path graph s e /\
          Forall (fruitless graph) before)
       \/
       (path_truthy (fst (try_pairs graph pairs init)) = false /\
        rest = [] /\
        Forall (fruitless graph) (snd (try_pairs graph pairs init)))).
Proof.
  induction pairs as [|[s e] pairs IH]; intros init Hinit; cbn.
  - exists []. split; [reflexivity|]. right. auto.
  - destruct (path_truthy (_find_shortest_path graph s e)) eqn:T; cbn.
    + exists pairs. split; [reflexivity|]. left. split; [assumption|].
      exists [], s, e. auto.
    + specialize (IH _ T).
      destruct (try_pairs graph pairs (_find_shortest_path graph s e))
        as [final calls]. cbn in *.
      destruct IH as (rest & -> & [(Ht & before & s' & e' & -> & Hf & Hb)
                                  |(Ht & -> & Hb)]).
      * exists rest. split; [reflexivity|]. left. split; [assumption|].
        exists ((s, e) :: before), s', e'. repeat split; auto.
      * exists []. split; [reflexivity|]. right. repeat split; auto.
Qed.

Lemma selected_path_origin (graph : Graph) (ents : list term) :
  NoDup ents ->
  path_truthy (fst (select_path graph ents)) = true ->
  exists s e, In s ents /\ In e ents /\ s <> e /\
              fst (select_path graph ents) = _find_shortest_path graph s e.
Proof.
  intros ND. unfold select_path.
  destruct (2 <=? List.length ents)%nat; [|discriminate].
  destruct (try_pairs_spec graph (permutations2 ents) None eq_refl)
    as (rest & Hp & [(_ & before & s & e & Hc & Hf & _)|(Ht & _)]).
  - intros _. exists s, e.
    assert (Hin : In (s, e) (permutations2 ents)).
    { rewrite Hp, Hc, !in_app_iff. left. right. now left. }
    apply permutations2_in in Hin; tauto.
  - congruence.
Qed.

(** ** Fact aggregation *)

Lemma conditional_update_in {A : Type}
      (eq_dec : forall a b : A, {a = b} + {a <> b}) (c : A -> bool)
      (xs : list A) :
  forall (s : list A) (y : A),
    In y (fold_left (fun acc x => if c x then set_add eq_dec x acc else acc)
                    xs s) <->
    In y s \/ (In y xs /\ c y = true).
Proof.
  induction xs as [|x xs IH]; intros s y; cbn.
  - tauto.
  - rewrite IH. destruct (c x) eqn:C.
    + rewrite set_add_in. intuition congruence.
    + intuition congruence.
Qed.

Lemma conditional_update_nodup {A : Type}
      (eq_dec : forall a b : A, {a = b} + {a <> b}) (c : A -> bool)
      (xs : list A) :
  forall s : list A,
    NoDup s ->
    NoDup (fold_left (fun acc x => if c x then set_add eq_dec x acc else acc)
                     xs s).
Proof.
  apply fold_left_preserves. intros s x ND.
  destruct (c x); [now apply set_add_nodup|assumption].
Qed.

Lemma basic_predicate (p : term) :
  mem p [RDFS_label; RDF_type] = true <-> p = RDFS_label \/ p = RDF_type.
Proof. rewrite mem_true. cbn. intuition congruence. Qed.

Lemma add_basic_facts_in (graph : Graph) (facts : list triple) (node : term)
      (t : triple) :
  In t (add_basic_facts graph facts node) <->
  In t facts \/ basic_fact_of graph node t.
Proof.
  unfold add_basic_facts, basic_fact_of, triples_from.
  rewrite (conditional_update_in triple_eq_dec
             (fun t => mem (t_predicate t) [RDFS_label; RDF_type])).
  rewrite filter_In, term_eqb_true, basic_predicate. tauto.
Qed.

Lemma add_basic_facts_nodup (graph : Graph) (facts : list triple)
      (node : term) :
  NoDup facts -> NoDup (add_basic_facts graph facts node).
Proof.
  apply (conditional_update_nodup triple_eq_dec
           (fun t => mem (t_predicate t) [RDFS_label; RDF_type])).
Qed.

Lemma basic_facts_of_nodes_in (graph : Graph) (nodes : list term) :
  forall (facts : list triple) (t : triple),
    In t (fold_left (add_basic_facts graph) nodes facts) <->
    In t facts \/ exists n, In n nodes /\ basic_fact_of graph n t.
Proof.
  induction nodes as [|n nodes IH]; intros facts t; cbn.
  - split; [auto|]. intros [H|(? & [] & _)]. assumption.
  - rewrite IH, add_basic_facts_in. split.
    + intros [[H|H]|(n' & H1 & H2)]; eauto 6.
    + intros [H|(n' & [<-|H1] & H2)]; eauto 6.
Qed.

Lemma nodes_in_path_in (p : path) (n : term) :
  In n (nodes_in_path p) <->
  In n (map t_subject p) \/ (In n (map t_object p) /\ is_URIRef n = true).
Proof.
  unfold nodes_in_path. rewrite !set_update_in, filter_In. cbn. tauto.
Qed.

Lemma path_regime_in (ord : set_order) (graph : Graph) (p : path)
      (t : triple) :
  In t (path_regime ord graph p) <->
  In t p \/
  exists n, In n (nodes_in_path p) /\ basic_fact_of graph n t.
Proof.
  unfold path_regime. rewrite basic_facts_of_nodes_in, set_update_in. cbn.
  split.
  - intros [[[]|H]|(n & Hn & Hb)]; [auto|].
    right. exists n. split; [|assumption]. now apply iterate_in in Hn.
  - intros [H|(n & Hn & Hb)]; [auto|].
    right. exists n. split; [|assumption]. now apply iterate_in.
Qed.

Lemma path_regime_nodup (ord : set_order) (graph : Graph) (p : path) :
  NoDup (path_regime ord graph p).
Proof.
  unfold path_regime. apply fold_left_preserves.
  - intros; now apply add_basic_facts_nodup.
  - apply set_update_nodup. constructor.
Qed.

Lemma neighborhood_regime_in (graph : Graph) (e : term) (rest : list term)
      (t : triple) :
  In t (neighborhood_regime graph (e :: rest)) <->
  In t graph /\ t_subject t = e.
Proof.
  cbn. rewrite set_update_in. unfold triples_from.
  rewrite filter_In, term_eqb_true. cbn. tauto.
Qed.

Lemma neighborhood_regime_nodup (graph : Graph) (ents : list term) :
  NoDup (neighborhood_regime graph ents).
Proof.
  destruct ents as [|e rest]; cbn; [constructor|].
  apply set_update_nodup. constructor.
Qed.

(** ** The report *)

Lemma format_report_fields (ord : set_order) (graph : Graph)
      (question0 : string) (ents : list term) (path_found : option path)
      (facts : list triple) (r : report) :
  format_report ord graph question0 ents path_found facts = Returned r ->
  question r = question0 /\
  comprehension (fun e => _get_node_label e graph) ents
  = Returned (entites_initiales r) /\
  (if path_truthy path_found
   then comprehension (format_hop graph)
                      (match path_found with Some p => p | None => [] end)
   else Returned []) = Returned (chemin_trouve r) /\
  comprehension (format_fact graph) (iterate ord facts)
  = Returned (faits_deduits r).
Proof.
  unfold format_report.
  destruct (comprehension (format_fact graph) _) as [ff|]; [|discriminate].
  cbn [bind].
  destruct (if path_truthy path_found then _ else _) as [fp|]; [|discriminate].
  cbn [bind].
  destruct (comprehension (fun e => _get_node_label e graph) ents) as [ls|];
    [|discriminate].
  cbn [bind]. intros [= <-]. cbn. auto.
Qed.

Lemma find_reasoning_path_steps (ord : set_order) (question0 : string)
      (graph : Graph) :
  find_reasoning_path ord question0 graph =
  match _identify_all_entities ord question0 graph with
  | [] => Returned {| question := question0;
                      entites_initiales := [];
                      chemin_trouve := [];
                      faits_deduits := [] |}
  | _ :: _ =>
      format_report ord graph question0
                    (_identify_all_entities ord question0 graph)
                    (selected_path ord question0 graph)
                    (deduced_facts ord question0 graph)
  end.
Proof.
  unfold find_reasoning_path, deduced_facts, selected_path.
  destruct (_identify_all_entities ord question0 graph); reflexivity.
Qed.

Lemma reported_facts (ord : set_order) (question0 : string) (graph : Graph)
      (r : report) :
  _identify_all_entities ord question0 graph <> [] ->
  find_reasoning_path ord question0 graph = Returned r ->
  comprehension (format_fact graph)
                (iterate ord (deduced_facts ord question0 graph))
  = Returned (faits_deduits r) /\
  (if path_truthy (selected_path ord question0 graph)
   then comprehension (format_hop graph)
          (match selected_path ord question0 graph with
           | Some p => p
           | None => []
           end)
   else Returned []) = Returned (chemin_trouve r).
Proof.
  intros Hne. rewrite find_reasoning_path_steps.
  destruct (_identify_all_entities ord question0 graph) as [|e ents] eqn:E;
    [congruence|].
  intros H. apply format_report_fields in H. tauto.
Qed.

Lemma selected_path_objects (ord : set_order) (question0 : string)
      (graph : Graph) (p : path) :
  selected_path ord question0 graph = Some p ->
  path_truthy (Some p) = true ->
  Forall (fun t => is_URIRef (t_object t) = true) p.
Proof.
  intros Hp Ht. unfold selected_path in Hp.
  destruct (identified_entity_set ord question0 graph) as [ND HU].
  destruct (selected_path_origin graph _ ND) as (s & e & Hs & He & Hne & Hf).
  { now rewrite Hp. }
  rewrite Hp in Hf. symmetry in Hf.
  destruct (find_sound _ _ _ _ Hf) as (nodes & W & _).
  destruct (walk_shape _ _ _ _ _ W (HU s Hs)) as (_ & _ & Hh).
  eapply Forall_impl; [|exact Hh]. cbn. tauto.
Qed.

(** ** When a report is returned *)

Lemma value_object_in (graph : Graph) (s p o : term) :
  value_object graph s p = Some o -> In (s, p, o) graph.
Proof.
  unfold value_object.
  destruct (filter _ graph) as [|t l] eqn:F; [discriminate|].
  intros [= <-].
  assert (Hin : In t (filter (fun t => term_eqb (t_subject t) s
                                       && term_eqb (t_predicate t) p) graph))
    by (rewrite F; now left).
  apply filter_In in Hin as [Hin Hc].
  apply andb_true_iff in Hc as [Hs Hp].
  apply term_eqb_true in Hs, Hp. destruct t as [[s' p'] o']. cbn in *.
  now subst.
Qed.

Lemma get_node_label_returns (graph : Graph) (n : term) :
  well_labelled graph -> exists l, _get_node_label n graph = Returned l.
Proof.
  intros WL. unfold _get_node_label.
  destruct (negb (is_URIRef n)); [eauto|].
  destruct (value_object graph n RDFS_label) as [l|] eqn:V; [|eauto].
  apply value_object_in in V. destruct (WL _ V eq_refl) as [H|H]; cbn in H.
  - destruct l; try discriminate. destruct (truthy _); eauto.
  - rewrite H. eauto.
Qed.

Lemma comprehension_returns {A B : Type} (f : A -> outcome B) (xs : list A) :
  (forall x, exists y, f x = Returned y) ->
  exists ys, comprehension f xs = Returned ys.
Proof.
  intros Hf. induction xs as [|x xs [ys IH]]; cbn; [eauto|].
  destruct (Hf x) as [y ->]. rewrite IH. cbn. eauto.
Qed.

Lemma format_fact_returns (graph : Graph) (t : triple) :
  well_labelled graph -> exists l, format_fact graph t = Returned l.
Proof.
  intros WL. unfold format_fact.
  destruct (get_node_label_returns graph (t_subject t) WL) as [s ->].
  destruct (get_node_label_returns graph (t_predicate t) WL) as [p ->].
  destruct (get_node_label_returns graph (t_object t) WL) as [o Ho].
  cbn. destruct (is_URIRef (t_object t)); [rewrite Ho|]; cbn; eauto.
Qed.

Lemma format_hop_returns (graph : Graph) (t : triple) :
  well_labelled graph -> exists l, format_hop graph t = Returned l.
Proof.
  intros WL. unfold format_hop.
  destruct (get_node_label_returns graph (t_subject t) WL) as [s ->].
  destruct (get_node_label_returns graph (t_predicate t) WL) as [p ->].
  destruct (get_node_label_returns graph (t_object t) WL) as [o ->].
  cbn. eauto.
Qed.

Lemma report_is_returned (ord : set_order) (question0 : string)
      (graph : Graph) :
  well_labelled graph ->
  exists r, find_reasoning_path ord question0 graph = Returned r.
Proof.
  intros WL. rewrite find_reasoning_path_steps.
  destruct (_identify_all_entities ord question0 graph) as [|e ents];
    [eauto|].
  unfold format_report.
  destruct (comprehension_returns (format_fact graph)
              (iterate ord (deduced_facts ord question0 graph)))
    as [ff ->]; [intros; now apply format_fact_returns|].
  cbn [bind].
  assert (Hp : exists fp,
             (if path_truthy (selected_path ord question0 graph)
              then comprehension (format_hop graph)
                     (match selected_path ord question0 graph with
                      | Some p => p
                      | None => []
                      end)
              else Returned []) = Returned fp).
  { destruct (path_truthy _); [|eauto].
    apply comprehension_returns. intros; now apply format_hop_returns. }
  destruct Hp as [fp ->]. cbn [bind].
  destruct (comprehension_returns (fun e => _get_node_label e graph)
              (e :: ents)) as [ls ->];
    [intros; now apply get_node_label_returns|].
  cbn [bind]. eauto.
Qed.

(** ** Reports and the iteration order of sets *)

Lemma collect_facts_same_order (ord1 ord2 : set_order) (graph : Graph)
      (ents : list term) (path_found : option path) :
  same_order ord1 ord2 ->
  collect_facts ord1 graph ents path_found
  = collect_facts ord2 graph ents path_found.
Proof.
  intros H. destruct path_found as [[|hop hops]|]; cbn; try reflexivity.
  unfold path_regime. now rewrite H.
Qed.

Lemma format_report_same_order (ord1 ord2 : set_order) (graph : Graph)
      (question0 : string) (ents : list term) (path_found : option path)
      (facts : list triple) :
  same_order ord1 ord2 ->
  format_report ord1 graph question0 ents path_found facts
  = format_report ord2 graph question0 ents path_found facts.
Proof. intros H. unfold format_report. now rewrite H. Qed.

Example permutations_of_three :
  permutations2 [1; 2; 3] = [(1, 2); (1, 3); (2, 1); (2, 3); (3, 1); (3, 2)].
Proof. reflexivity. Qed.

Example scenario_false_sharing :
  find_reasoning_path insertion_order Fixture.question_two_entities
                      Fixture.ontology
  = Returned
      {| question := Fixture.question_two_entities;
         entites_initiales := ["False sharing"; "Cache line alignment"];
         chemin_trouve :=
           ["False sharing --[estResoluPar]--> Cache line alignment"];
         faits_deduits :=
           ["False sharing --[estResoluPar]--> Cache line alignment";
            ("False sharing --[label]--> " ++ quote ++ "False sharing"
             ++ quote)%string;
            "False sharing --[type]--> ProblemePerformance";
            ("Cache line alignment --[label]--> " ++ quote
             ++ "Cache line alignment" ++ quote)%string] |}.
Proof. reflexivity. Qed.

(** A label that is not a literal makes [label.value] raise while the
    facts are formatted. *)
Example label_that_is_not_a_literal_raises :
  find_reasoning_path insertion_order "alpha"
    [ (Fixture.A, RDFS_label, Literal "alpha");
      (Fixture.A, Fixture.rel, Fixture.B);
      (Fixture.B, RDFS_label, Fixture.C) ]
  = AttributeError.
Proof. reflexivity. Qed.

(** ** Two runs with different iteration orders *)

Lemma comprehension_cons {A B : Type} (f : A -> outcome B) (x : A)
      (xs : list A) (ys : list B) :
  comprehension f (x :: xs) = Returned ys ->
  exists y rest, f x = Returned y /\ comprehension f xs = Returned rest /\
                 ys = y :: rest.
Proof.
  cbn. destruct (f x) as [y|]; cbn; [|discriminate].
  destruct (comprehension f xs) as [rest|]; cbn; [|discriminate].
  intros [= <-]. now exists y, rest.
Qed.

(** The elements of a comprehension follow the order of its source: a
    source taken in another order gives the same elements in that order. *)
Lemma comprehension_perm {A B : Type} (f : A -> outcome B) (xs xs' : list A) :
  Permutation xs xs' ->
  forall ys, comprehension f xs = Returned ys ->
    exists ys', comprehension f xs' = Returned ys' /\ Permutation ys ys'.
Proof.
  induction 1 as [|x l l' HP IH|x y l|l l' l'' HP1 IH1 HP2 IH2]; intros ys H.
  - exists ys. split; [assumption|]. apply Permutation_refl.
  - apply comprehension_cons in H as (y & rest & Hx & Hr & ->).
    destruct (IH _ Hr) as (rest' & Hr' & HP').
    exists (y :: rest'). cbn. rewrite Hx, Hr'. cbn.
    split; [reflexivity|]. now apply perm_skip.
  - apply comprehension_cons in H as (b & rest & Hy & Hr & ->).
    apply comprehension_cons in Hr as (a & rest' & Hx & Hr & ->).
    exists (a :: b :: rest'). cbn. rewrite Hx, Hy, Hr. cbn.
    split; [reflexivity|]. apply perm_swap.
  - destruct (IH1 _ H) as (ys' & H' & HP').
    destruct (IH2 _ H') as (ys'' & H'' & HP'').
    exists ys''. split; [assumption|]. now apply perm_trans with ys'.
Qed.

(** A set of at most one member is listed in one way only. *)
Lemma iterate_short (ord : set_order) {A : Type} (l : list A) :
  (List.length l <= 1)%nat -> iterate ord l = l.
Proof.
  intros Hl. pose proof (iterate_perm ord A l) as HP.
  destruct l as [|x [|y l]]; cbn in Hl; [| |lia].
  - now apply Permutation_nil in HP.
  - now apply Permutation_length_1_inv in HP.
Qed.

(** The pair loop ends with a path exactly when one of its searches
    does. *)
Lemma try_pairs_truthy (graph : Graph) (pairs : list (term * term)) :
  forall init, path_truthy init = false ->
    path_truthy (fst (try_pairs graph pairs init))
    = existsb (fun pair => path_truthy (_find_shortest_path graph (fst pair)
                                                            (snd pair)))
              pairs.
Proof.
  induction pairs as [|[s e] pairs IH]; intros init Hi; cbn; [assumption|].
  destruct (path_truthy (_find_shortest_path graph s e)) eqn:T; cbn;
    [assumption|].
  specialize (IH _ T).
  destruct (try_pairs graph pairs (_find_shortest_path graph s e))
    as [final calls]. exact IH.
Qed.

Lemma existsb_same_members {A : Type} (f : A -> bool) (l l' : list A) :
  (forall x, In x l <-> In x l') -> existsb f l = existsb f l'.
Proof.
  intros H.
  destruct (existsb f l) eqn:E, (existsb f l') eqn:E'; try reflexivity.
  - apply existsb_exists in E as (x & Hin & Hx).
    assert (E2 : existsb f l' = true)
      by (apply existsb_exists; exists x; split; [now apply H|assumption]).
    congruence.
  - apply existsb_exists in E' as (x & Hin & Hx).
    assert (E2 : existsb f l = true)
      by (apply existsb_exists; exists x; split; [now apply H|assumption]).
    congruence.
Qed.

(** Whether step 2 finds a path does not depend on the order in which the
    entities are listed. *)
Lemma select_path_truthy_perm (graph : Graph) (ents ents' : list term) :
  NoDup ents -> NoDup ents' -> Permutation ents ents' ->
  path_truthy (fst (select_path graph ents))
  = path_truthy (fst (select_path graph ents')).
Proof.
  intros ND ND' HP. unfold select_path.
  rewrite <- (Permutation_length HP).
  destruct (2 <=? List.length ents)%nat; [|reflexivity].
  rewrite !try_pairs_truthy by reflexivity.
  apply existsb_same_members. intros [a b].
  rewrite !permutations2_in by assumption.
  split; intros (Ha & Hb & Hne); repeat split; try assumption.
  - now apply (Permutation_in _ HP).
  - now apply (Permutation_in _ HP).
  - now apply (Permutation_in _ (Permutation_sym HP)).
  - now apply (Permutation_in _ (Permutation_sym HP)).
Qed.

Lemma collect_facts_nodup (ord : set_order) (graph : Graph)
      (ents : list term) (path_found : option path) :
  NoDup (collect_facts ord graph ents path_found).
Proof.
  unfold collect_facts. destruct path_found as [[|hop hops]|].
  - apply neighborhood_regime_nodup.
  - apply path_regime_nodup.
  - apply neighborhood_regime_nodup.
Qed.

(** The fact set of step 3 is the same set under every iteration order. *)
Lemma collect_facts_any_order (ord1 ord2 : set_order) (graph : Graph)
      (ents : list term) (path_found : option path) (t : triple) :
  In t (collect_facts ord1 graph ents path_found) <->
  In t (collect_facts ord2 graph ents path_found).
Proof.
  unfold collect_facts. destruct path_found as [[|hop hops]|];
    try reflexivity.
  now rewrite !path_regime_in.
Qed.

(** Step 4 on the same entities and path and on the same fact set, under
    two iteration orders. *)
Lemma format_report_any_order (ord1 ord2 : set_order) (graph : Graph)
      (question0 : string) (ents : list term) (path_found : option path)
      (facts facts' : list triple) (r1 : report) :
  Permutation facts facts' ->
  format_report ord1 graph question0 ents path_found facts = Returned r1 ->
  exists r2,
    format_report ord2 graph question0 ents path_found facts' = Returned r2 /\
    question r1 = question r2 /\
    entites_initiales r1 = entites_initiales r2 /\
    chemin_trouve r1 = chemin_trouve r2 /\
    Permutation (faits_deduits r1) (faits_deduits r2).
Proof.
  intros HP H.
  apply format_report_fields in H as (Hq & Hl & Hp & Hf).
  assert (HP' : Permutation (iterate ord1 facts) (iterate ord2 facts')).
  { apply perm_trans with facts;
      [apply Permutation_sym, iterate_perm|].
    apply perm_trans with facts'; [assumption|apply iterate_perm]. }
  destruct (comprehension_perm _ _ _ HP' _ Hf) as (lines & Hlines & HPl).
  exists {| question := question0;
            entites_initiales := entites_initiales r1;
            chemin_trouve := chemin_trouve r1;
            faits_deduits := lines |}.
  unfold format_report. rewrite Hlines, Hp, Hl. cbn.
  repeat split; assumption.
Qed.

(** ** Claims on the orchestration *)

(** C2.  When a connecting path was found, the collected facts are exactly
    the triples of the path together with the label and type triples that
    the graph holds for the subjects and objects of the path triples;
    nothing else is collected, no triple is collected twice, and the facts
    of the report are these triples, formatted. *)
Theorem path_regime_collects_path_and_basic_facts (ord : set_order)
        (question0 : string) (graph : Graph) (hop : triple) (hops : path) :
  selected_path ord question0 graph = Some (hop :: hops) ->
  NoDup (deduced_facts ord question0 graph) /\
  (forall t,
     In t (deduced_facts ord question0 graph) <->
     In t (hop :: hops) \/
     (In t graph /\
      (t_predicate t = RDFS_label \/ t_predicate t = RDF_type) /\
      exists h, In h (hop :: hops) /\
                (t_subject t = t_subject h \/ t_subject t = t_object h))) /\
  (forall r, find_reasoning_path ord question0 graph = Returned r ->
     comprehension (format_fact graph)
                   (iterate ord (deduced_facts ord question0 graph))
     = Returned (faits_deduits r)).
Proof.
  intros Hp.
  pose proof (selected_path_objects _ _ _ _ Hp eq_refl) as Hobj.
  rewrite Forall_forall in Hobj.
  assert (Hfacts : deduced_facts ord question0 graph
                   = path_regime ord graph (hop :: hops)).
  { unfold deduced_facts. now rewrite Hp. }
  split; [|split].
  - rewrite Hfacts. apply path_regime_nodup.
  - intros t. rewrite Hfacts, path_regime_in. unfold basic_fact_of. split.
    + intros [H|(n & Hn & Hin & Hs & Hpred)]; [now left|]. right.
      split; [assumption|]. split; [assumption|].
      apply nodes_in_path_in in Hn as [Hn|[Hn _]];
        apply in_map_iff in Hn as (h & <- & Hh); exists h; auto.
    + intros [H|(Hin & Hpred & h & Hh & [Hs|Hs])]; [now left| |]; right.
      * exists (t_subject h). split; [|auto].
        apply nodes_in_path_in. left. now apply in_map.
      * exists (t_object h). split; [|auto].
        apply nodes_in_path_in. right. split; [now apply in_map|auto].
  - intros r Hr. apply reported_facts in Hr; [tauto|].
    intros E. unfold selected_path in Hp. rewrite E in Hp. discriminate.
Qed.

Lemma path_regime_collects_path_and_basic_facts_witness :
  let hop := (Fixture.FalseSharing, Fixture.estResoluPar,
              Fixture.CacheLineAlignment) in
  let facts := deduced_facts insertion_order Fixture.question_two_entities
                             Fixture.ontology in
  selected_path insertion_order Fixture.question_two_entities
                Fixture.ontology = Some [hop] /\
  NoDup facts /\
  (forall t,
     In t facts <->
     In t [hop] \/
     (In t Fixture.ontology /\
      (t_predicate t = RDFS_label \/ t_predicate t = RDF_type) /\
      exists h, In h [hop] /\
                (t_subject t = t_subject h \/ t_subject t = t_object h))) /\
  (forall r,
     find_reasoning_path insertion_order Fixture.question_two_entities
                         Fixture.ontology = Returned r ->
     comprehension (format_fact Fixture.ontology)
                   (iterate insertion_order facts)
     = Returned (faits_deduits r)).
Proof.
  cbv zeta. split; [reflexivity|].
  apply (path_regime_collects_path_and_basic_facts insertion_order
           Fixture.question_two_entities Fixture.ontology).
  reflexivity.
Defined.

(** C3.  The pairs enumerated are exactly the ordered pairs of different
    resolved entities.  With fewer than two resolved entities no search is
    made.  With two or more, the searches made are an initial segment of the
    enumeration: either it ends with the first pair whose search returned a
    non-empty path, which is the path found, or it is the whole enumeration
    and no path was found. *)
Theorem pair_selection_policy (ord : set_order) (question0 : string)
        (graph : Graph) :
  let ents := _identify_all_entities ord question0 graph in
  (forall a b,
     In (a, b) (permutations2 ents) <-> In a ents /\ In b ents /\ a <> b) /\
  (List.length ents < 2 ->
   searches_made ord question0 graph = [] /\
   selected_path ord question0 graph = None) /\
  (2 <= List.length ents ->
   exists rest,
     permutations2 ents = searches_made ord question0 graph ++ rest /\
     ((path_truthy (selected_path ord question0 graph) = true /\
       exists before s e,
         searches_made ord question0 graph = before ++ [(s, e)] /\
         selected_path ord question0 graph
         = _find_shortest_path graph s e /\
         Forall (fruitless graph) before)
      \/
      (path_truthy (selected_path ord question0 graph) = false /\
       rest = [] /\
       Forall (fruitless graph) (searches_made ord question0 graph)))).
Proof.
  intros ents. destruct (identified_entity_set ord question0 graph) as [ND _].
  fold ents in ND. unfold searches_made, selected_path, select_path.
  fold ents. split; [|split].
  - intros a b. now apply permutations2_in.
  - intros Hlt. apply Nat.leb_gt in Hlt. rewrite Hlt. auto.
  - intros Hge. apply Nat.leb_le in Hge. rewrite Hge.
    apply try_pairs_spec. reflexivity.
Qed.

(** C4.  When the resolver yields exactly one entity, no search is made and
    no path is found; the collected facts are exactly the triples of the
    graph whose subject is that entity, each once; a returned report has an
    empty path list and these triples, formatted, as its facts; and the
    report is returned whenever the labels of the graph are literals. *)
Theorem single_entity_neighborhood (ord : set_order) (question0 : string)
        (graph : Graph) (e : term) :
  _identify_all_entities ord question0 graph = [e] ->
  searches_made ord question0 graph = [] /\
  selected_path ord question0 graph = None /\
  NoDup (deduced_facts ord question0 graph) /\
  (forall t, In t (deduced_facts ord question0 graph) <->
             In t graph /\ t_subject t = e) /\
  (forall r, find_reasoning_path ord question0 graph = Returned r ->
     chemin_trouve r = [] /\
     comprehension (format_fact graph)
                   (iterate ord (deduced_facts ord question0 graph))
     = Returned (faits_deduits r)) /\
  (well_labelled graph ->
   exists r, find_reasoning_path ord question0 graph = Returned r).
Proof.
  intros E.
  assert (Hsel : selected_path ord question0 graph = None).
  { unfold selected_path. now rewrite E. }
  assert (Hfacts : deduced_facts ord question0 graph
                   = neighborhood_regime graph [e]).
  { unfold deduced_facts. now rewrite Hsel, E. }
  split; [unfold searches_made; now rewrite E|].
  split; [assumption|]. split; [|split; [|split]].
  - rewrite Hfacts. apply neighborhood_regime_nodup.
  - intros t. rewrite Hfacts. apply neighborhood_regime_in.
  - intros r Hr. apply reported_facts in Hr; [|now rewrite E].
    destruct Hr as [Hf Hpath]. rewrite Hsel in Hpath. cbn in Hpath.
    split; [congruence|assumption].
  - apply report_is_returned.
Qed.

Lemma single_entity_neighborhood_witness :
  let facts := deduced_facts insertion_order Fixture.question_one_entity
                             Fixture.ontology in
  _identify_all_entities insertion_order Fixture.question_one_entity
                         Fixture.ontology = [Fixture.CacheLineAlignment] /\
  searches_made insertion_order Fixture.question_one_entity
                Fixture.ontology = [] /\
  selected_path insertion_order Fixture.question_one_entity
                Fixture.ontology = None /\
  NoDup facts /\
  (forall t, In t facts <->
             In t Fixture.ontology /\
             t_subject t = Fixture.CacheLineAlignment) /\
  (forall r,
     find_reasoning_path insertion_order Fixture.question_one_entity
                         Fixture.ontology = Returned r ->
     chemin_trouve r = [] /\
     comprehension (format_fact Fixture.ontology)
                   (iterate insertion_order facts)
     = Returned (faits_deduits r)) /\
  (well_labelled Fixture.ontology ->
   exists r,
     find_reasoning_path insertion_order Fixture.question_one_entity
                         Fixture.ontology = Returned r).
Proof.
  cbv zeta. split; [reflexivity|].
  apply (single_entity_neighborhood insertion_order
           Fixture.question_one_entity Fixture.ontology).
  reflexivity.
Defined.

(** C7.  When the resolver finds no entity, the report is returned at once:
    its entity labels, its path and its facts are empty. *)
Theorem unresolved_question_gives_empty_report (ord : set_order)
        (question0 : string) (graph : Graph) :
  _identify_all_entities ord question0 graph = [] ->
  find_reasoning_path ord question0 graph
  = Returned {| question := question0;
                entites_initiales := [];
                chemin_trouve := [];
                faits_deduits := [] |}.
Proof.
  intros E. unfold find_reasoning_path. now rewrite E.
Qed.

Lemma unresolved_question_gives_empty_report_witness :
  _identify_all_entities insertion_order Fixture.question_no_entity
                         Fixture.ontology = [] /\
  find_reasoning_path insertion_order Fixture.question_no_entity
                      Fixture.ontology
  = Returned {| question := Fixture.question_no_entity;
                entites_initiales := [];
                chemin_trouve := [];
                faits_deduits := [] |}.
Proof.
  split; [reflexivity|].
  apply unresolved_question_gives_empty_report. reflexivity.
Defined.

(** C9, as the code has it.  Take two runs on the same question and the
    same graph, whose interpreters iterate sets in any two orders.  Both
    resolve the same entities, and both find a path or neither does.  When
    both list the resolved entities in the same order -- always so when at
    most one entity is resolved, and then no path is found -- they select the
    same path, collect the same set of facts, and the second run returns a
    report whenever the first does: the same question, entity labels and
    path lines, and the same fact lines up to their order.  When both
    iterate every set in the same order the two reports are equal. *)
Theorem runs_agree_up_to_set_order (ord1 ord2 : set_order)
        (question0 : string) (graph : Graph) :
  Permutation (_identify_all_entities ord1 question0 graph)
              (_identify_all_entities ord2 question0 graph) /\
  path_truthy (selected_path ord1 question0 graph)
  = path_truthy (selected_path ord2 question0 graph) /\
  ((List.length (_identify_all_entities ord1 question0 graph) <= 1)%nat ->
   _identify_all_entities ord1 question0 graph
   = _identify_all_entities ord2 question0 graph /\
   selected_path ord1 question0 graph = None) /\
  (_identify_all_entities ord1 question0 graph
   = _identify_all_entities ord2 question0 graph ->
   selected_path ord1 question0 graph = selected_path ord2 question0 graph /\
   NoDup (deduced_facts ord1 question0 graph) /\
   NoDup (deduced_facts ord2 question0 graph) /\
   (forall t, In t (deduced_facts ord1 question0 graph) <->
              In t (deduced_facts ord2 question0 graph)) /\
   (forall r1, find_reasoning_path ord1 question0 graph = Returned r1 ->
      exists r2,
        find_reasoning_path ord2 question0 graph = Returned r2 /\
        question r1 = question r2 /\
        entites_initiales r1 = entites_initiales r2 /\
        chemin_trouve r1 = chemin_trouve r2 /\
        Permutation (faits_deduits r1) (faits_deduits r2))) /\
  (same_order ord1 ord2 ->
   find_reasoning_path ord1 question0 graph
   = find_reasoning_path ord2 question0 graph).
Proof.
  assert (HP : Permutation (_identify_all_entities ord1 question0 graph)
                           (_identify_all_entities ord2 question0 graph)).
  { unfold _identify_all_entities.
    apply perm_trans with (found_entities question0 graph);
      [apply Permutation_sym|]; apply iterate_perm. }
  destruct (identified_entity_set ord1 question0 graph) as [ND1 _].
  destruct (identified_entity_set ord2 question0 graph) as [ND2 _].
  split; [exact HP|]. split; [|split; [|split]].
  - unfold selected_path. now apply select_path_truthy_perm.
  - intros Hl. unfold _identify_all_entities in *.
    rewrite iterate_length in Hl.
    rewrite !iterate_short by assumption. split; [reflexivity|].
    unfold selected_path, select_path, _identify_all_entities.
    rewrite iterate_short by assumption.
    destruct (found_entities question0 graph) as [|x [|y l]];
      cbn in *; try reflexivity; lia.
  - intros He.
    assert (Hs : selected_path ord1 question0 graph
                 = selected_path ord2 question0 graph)
      by (unfold selected_path; now rewrite He).
    assert (Hin : forall t, In t (deduced_facts ord1 question0 graph) <->
                            In t (deduced_facts ord2 question0 graph)).
    { intros t. unfold deduced_facts. rewrite He, Hs.
      apply collect_facts_any_order. }
    split; [exact Hs|].
    split; [apply collect_facts_nodup|].
    split; [apply collect_facts_nodup|].
    split; [exact Hin|].
    intros r1. rewrite !find_reasoning_path_steps, <- He, <- Hs.
    destruct (_identify_all_entities ord1 question0 graph) as [|e ents].
    + intros [= <-]. eexists. split; [reflexivity|].
      repeat split. apply Permutation_refl.
    + apply format_report_any_order.
      apply NoDup_Permutation; try apply collect_facts_nodup. exact Hin.
  - intros H. unfold find_reasoning_path, _identify_all_entities. rewrite H.
    destruct (iterate ord2 (found_entities question0 graph)) as [|e ents];
      [reflexivity|].
    rewrite (collect_facts_same_order ord1 ord2) by assumption.
    now apply format_report_same_order.
Qed.

(** One resolved entity, two iteration orders: the second run returns the
    fact lines of the first, up to their order. *)
Lemma runs_agree_up_to_set_order_witness :
  (List.length (_identify_all_entities insertion_order
                  Fixture.question_one_entity Fixture.ontology) <= 1)%nat /\
  _identify_all_entities insertion_order Fixture.question_one_entity
                         Fixture.ontology
  = _identify_all_entities reverse_order Fixture.question_one_entity
                           Fixture.ontology /\
  (forall r1,
     find_reasoning_path insertion_order Fixture.question_one_entity
                         Fixture.ontology = Returned r1 ->
     exists r2,
       find_reasoning_path reverse_order Fixture.question_one_entity
                           Fixture.ontology = Returned r2 /\
       question r1 = question r2 /\
       entites_initiales r1 = entites_initiales r2 /\
       chemin_trouve r1 = chemin_trouve r2 /\
       Permutation (faits_deduits r1) (faits_deduits r2)).
Proof.
  assert (Hl : (List.length (_identify_all_entities insertion_order
                  Fixture.question_one_entity Fixture.ontology) <= 1)%nat)
    by (vm_compute; lia).
  destruct (runs_agree_up_to_set_order insertion_order reverse_order
              Fixture.question_one_entity Fixture.ontology)
    as (_ & _ & Hone & Hsame & _).
  split; [exact Hl|]. split; [apply (Hone Hl)|].
  apply Hsame, (Hone Hl).
Defined.

(** C9, as stated, fails in each of its three parts, between two runs whose
    interpreters iterate sets in different orders.  With two resolved
    entities that nothing joins, the two reports hold different facts.  With
    two resolved entities joined by two routes, the two reports hold
    different path lines.  With one resolved entity, the two reports hold
    the same facts in different orders. *)
Lemma report_depends_on_set_order :
  (find_reasoning_path insertion_order Fixture.question_unrelated
                       Fixture.unrelated
   = Returned {| question := Fixture.question_unrelated;
                 entites_initiales := ["alpha"; "beta"];
                 chemin_trouve := [];
                 faits_deduits := [Fixture.alpha_line] |} /\
   find_reasoning_path reverse_order Fixture.question_unrelated
                       Fixture.unrelated
   = Returned {| question := Fixture.question_unrelated;
                 entites_initiales := ["beta"; "alpha"];
                 chemin_trouve := [];
                 faits_deduits := [Fixture.beta_line] |} /\
   ~ (forall line,
        In line [Fixture.alpha_line] <-> In line [Fixture.beta_line])) /\
  (find_reasoning_path insertion_order Fixture.question_two_routes
                       Fixture.two_routes
   = Returned {| question := Fixture.question_two_routes;
                 entites_initiales := ["alpha"; "beta"];
                 chemin_trouve := ["alpha --[ex:via]--> ex:C";
                                   "ex:C --[ex:via]--> beta"];
                 faits_deduits := ["alpha --[ex:via]--> ex:C";
                                   "ex:C --[ex:via]--> beta";
                                   Fixture.alpha_line;
                                   Fixture.beta_line] |} /\
   find_reasoning_path reverse_order Fixture.question_two_routes
                       Fixture.two_routes
   = Returned {| question := Fixture.question_two_routes;
                 entites_initiales := ["beta"; "alpha"];
                 chemin_trouve := ["ex:D --[ex:via]--> beta";
                                   "alpha --[ex:via]--> ex:D"];
                 faits_deduits := [Fixture.alpha_line;
                                   Fixture.beta_line;
                                   "alpha --[ex:via]--> ex:D";
                                   "ex:D --[ex:via]--> beta"] |} /\
   ~ (forall line,
        In line ["alpha --[ex:via]--> ex:C"; "ex:C --[ex:via]--> beta"] <->
        In line ["ex:D --[ex:via]--> beta"; "alpha --[ex:via]--> ex:D"])) /\
  (find_reasoning_path insertion_order Fixture.question_one_entity
                       Fixture.ontology
   = Returned {| question := Fixture.question_one_entity;
                 entites_initiales := ["Cache line alignment"];
                 chemin_trouve := [];
                 faits_deduits := [Fixture.cache_label_line;
                                   Fixture.cache_note_line] |} /\
   find_reasoning_path reverse_order Fixture.question_one_entity
                       Fixture.ontology
   = Returned {| question := Fixture.question_one_entity;
                 entites_initiales := ["Cache line alignment"];
                 chemin_trouve := [];
                 faits_deduits := [Fixture.cache_note_line;
                                   Fixture.cache_label_line] |} /\
   [Fixture.cache_label_line; Fixture.cache_note_line]
   <> [Fixture.cache_note_line; Fixture.cache_label_line]).
Proof.
  split; [|split].
  - split; [reflexivity|]. split; [reflexivity|].
    intros H. destruct (proj1 (H Fixture.alpha_line) (or_introl eq_refl))
      as [E|[]].
    discriminate E.
  - split; [reflexivity|]. split; [reflexivity|].
    intros H.
    destruct (proj1 (H "alpha --[ex:via]--> ex:C") (or_introl eq_refl))
      as [E|[E|[]]]; discriminate E.
  - split; [reflexivity|]. split; [reflexivity|]. discriminate.
Qed.

(** * Further properties of the code *)

(** ** The resolver as a whole *)

Lemma value_subject_in (graph : Graph) (p o s : term) :
  value_subject graph p o = Some s -> In (s, p, o) graph.
Proof.
  unfold value_subject.
  destruct (filter _ graph) as [|t l] eqn:F; [discriminate|].
  intros [= <-].
  assert (Hin : In t (filter (fun t => term_eqb (t_predicate t) p
                                       && term_eqb (t_object t) o) graph))
    by (rewrite F; now left).
  apply filter_In in Hin as [Hin Hc].
  apply andb_true_iff in Hc as [Hp Ho].
  apply term_eqb_true in Hp, Ho. destruct t as [[s' p'] o']. cbn in *.
  now subst.
Qed.

Lemma direct_label_pass_in (question_lower : string) (graph : Graph)
      (found : list term) (e : term) :
  In e (direct_label_pass question_lower graph found) <->
  In e found \/
  exists label_text,
    In (e, RDFS_label, Literal label_text) graph /\
    is_URIRef e = true /\
    contains (lower label_text) question_lower = true.
Proof.
  unfold direct_label_pass, triples_with_predicate.
  assert (G : forall l found,
    In e (fold_left
            (fun found t =>
               if is_URIRef (t_subject t) && is_Literal (t_object t) then
                 if contains (lower (str (t_object t))) question_lower then
                   if mem (t_subject t) found then found
                   else set_add term_eq_dec (t_subject t) found
                 else found
               else found) l found) <->
    In e found \/
    exists t, In t l /\ t_subject t = e /\ is_URIRef e = true /\
              is_Literal (t_object t) = true /\
              contains (lower (str (t_object t))) question_lower = true).
  { induction l as [|t l IH]; intros fnd; cbn [fold_left].
    - split; [auto|]. intros [H|(? & [] & _)]. assumption.
    - rewrite IH. clear IH.
      destruct (is_URIRef (t_subject t) && is_Literal (t_object t)) eqn:G1.
      + apply andb_true_iff in G1 as [Gu Gl].
        destruct (contains _ question_lower) eqn:G2.
        * assert (Hadd : In e (if mem (t_subject t) fnd then fnd
                               else set_add term_eq_dec (t_subject t) fnd)
                         <-> In e fnd \/ e = t_subject t).
          { destruct (mem (t_subject t) fnd) eqn:M.
            - apply mem_true in M. split; [auto|]. intros [H| ->]; auto.
            - apply set_add_in. }
          rewrite Hadd. split.
          -- intros [[H| ->]|(t' & H1 & H2)]; [auto| |].
             ++ right. exists t. cbn. auto 6.
             ++ right. exists t'. cbn. tauto.
          -- intros [H|(t' & [<-|H1] & H2 & H3)]; [auto| |].
             ++ left. right. now symmetry.
             ++ right. exists t'. tauto.
        * split.
          -- intros [H|(t' & H1 & H2)]; [auto|].
             right. exists t'. cbn. tauto.
          -- intros [H|(t' & [<-|H1] & H2 & H3 & H4 & H5)];
               [auto|congruence|].
             right. exists t'. tauto.
      + split.
        -- intros [H|(t' & H1 & H2)]; [auto|].
           right. exists t'. cbn. tauto.
        -- intros [H|(t' & [<-|H1] & H2 & H3 & H4 & H5)]; [auto| |].
           ++ rewrite H2, H3, H4 in G1. discriminate.
           ++ right. exists t'. tauto. }
  rewrite G. split.
  - intros [H|(t & Hin & Hs & Hu & Hl & Hc)]; [auto|]. right.
    apply filter_In in Hin as [Hin Hp]. apply term_eqb_true in Hp.
    destruct t as [[s p] o]. cbn in *. subst.
    destruct o as [| |l]; try discriminate. exists l. auto.
  - intros [H|(l & Hin & Hu & Hc)]; [auto|]. right.
    exists (e, RDFS_label, Literal l). cbn. repeat split; auto.
    apply filter_In. split; [assumption|]. apply term_eqb_refl.
Qed.

Lemma found_entities_in (question0 : string) (graph : Graph) (e : term) :
  In e (found_entities question0 graph) <->
  synonym_match question0 graph e \/ direct_match question0 graph e.
Proof.
  unfold found_entities, synonym_pass, synonym_match, direct_match.
  rewrite direct_label_pass_in, synonym_entries_in. cbn. tauto.
Qed.

Lemma direct_label_pass_with_in (str_lower : string -> string)
      (question_lower : string) (graph : Graph)
      (found : list term) (e : term) :
  In e (direct_label_pass_with str_lower question_lower graph found) <->
  In e found \/
  exists label_text,
    In (e, RDFS_label, Literal label_text) graph /\
    is_URIRef e = true /\
    contains (str_lower label_text) question_lower = true.
Proof.
  unfold direct_label_pass_with, triples_with_predicate.
  assert (G : forall l found,
    In e (fold_left
            (fun found t =>
               if is_URIRef (t_subject t) && is_Literal (t_object t) then
                 if contains (str_lower (str (t_object t))) question_lower
                 then
                   if mem (t_subject t) found then found
                   else set_add term_eq_dec (t_subject t) found
                 else found
               else found) l found) <->
    In e found \/
    exists t, In t l /\ t_subject t = e /\ is_URIRef e = true /\
              is_Literal (t_object t) = true /\
              contains (str_lower (str (t_object t))) question_lower = true).
  { induction l as [|t l IH]; intros fnd; cbn [fold_left].
    - split; [auto|]. intros [H|(? & [] & _)]. assumption.
    - rewrite IH. clear IH.
      destruct (is_URIRef (t_subject t) && is_Literal (t_object t)) eqn:G1.
      + apply andb_true_iff in G1 as [Gu Gl].
        destruct (contains _ question_lower) eqn:G2.
        * assert (Hadd : In e (if mem (t_subject t) fnd then fnd
                               else set_add term_eq_dec (t_subject t) fnd)
                         <-> In e fnd \/ e = t_subject t).
          { destruct (mem (t_subject t) fnd) eqn:M.
            - apply mem_true in M. split; [auto|]. intros [H| ->]; auto.
            - apply set_add_in. }
          rewrite Hadd. split.
          -- intros [[H| ->]|(t' & H1 & H2)]; [auto| |].
             ++ right. exists t. cbn. auto 6.
             ++ right. exists t'. cbn. tauto.
          -- intros [H|(t' & [<-|H1] & H2 & H3)]; [auto| |].
             ++ left. right. now symmetry.
             ++ right. exists t'. tauto.
        * split.
          -- intros [H|(t' & H1 & H2)]; [auto|].
             right. exists t'. cbn. tauto.
          -- intros [H|(t' & [<-|H1] & H2 & H3 & H4 & H5)];
               [auto|congruence|].
             right. exists t'. tauto.
      + split.
        -- intros [H|(t' & H1 & H2)]; [auto|].
           right. exists t'. cbn. tauto.
        -- intros [H|(t' & [<-|H1] & H2 & H3 & H4 & H5)]; [auto| |].
           ++ rewrite H2, H3, H4 in G1. discriminate.
           ++ right. exists t'. tauto. }
  rewrite G. split.
  - intros [H|(t & Hin & Hs & Hu & Hl & Hc)]; [auto|]. right.
    apply filter_In in Hin as [Hin Hp]. apply term_eqb_true in Hp.
    destruct t as [[s p] o]. cbn in *. subst.
    destruct o as [| |l]; try discriminate. exists l. auto.
  - intros [H|(l & Hin & Hu & Hc)]; [auto|]. right.
    exists (e, RDFS_label, Literal l). cbn. repeat split; auto.
    apply filter_In. split; [assumption|]. apply term_eqb_refl.
Qed.

Lemma found_entities_with_in (str_lower : string -> string)
      (question0 : string) (graph : Graph) (e : term) :
  In e (found_entities_with str_lower question0 graph) <->
  synonym_match_with str_lower question0 graph e \/
  direct_match_with str_lower question0 graph e.
Proof.
  unfold found_entities_with, synonym_pass, synonym_match_with,
    direct_match_with.
  rewrite direct_label_pass_with_in, synonym_entries_in. cbn. tauto.
Qed.

(** With the ASCII lowering, the open resolver is the resolver of the
    development. *)
Lemma identify_all_entities_with_lower (ord : set_order) (question0 : string)
      (graph : Graph) :
  _identify_all_entities_with lower ord question0 graph
  = _identify_all_entities ord question0 graph.
Proof. reflexivity. Qed.

(** X1.  Whatever the lowercasing [str_lower] that stands for [.lower()],
    the resolver returns an entity exactly when a synonym label, under a
    keyword that occurs in the lowercased question, resolves to it, or one
    of its literal labels, lowercased, occurs in the lowercased question --
    in whatever order the set is listed. *)
Theorem resolver_returns_exactly_the_matches (str_lower : string -> string)
        (ord : set_order) (question0 : string) (graph : Graph) (e : term) :
  In e (_identify_all_entities_with str_lower ord question0 graph) <->
  synonym_match_with str_lower question0 graph e \/
  direct_match_with str_lower question0 graph e.
Proof.
  unfold _identify_all_entities_with.
  rewrite iterate_in. apply found_entities_with_in.
Qed.

Lemma resolved_entity_has_label (question0 : string) (graph : Graph)
      (e : term) :
  In e (found_entities question0 graph) ->
  exists label_text, In (e, RDFS_label, Literal label_text) graph.
Proof.
  intros H. apply found_entities_in in H
    as [(k & ls & l & _ & _ & _ & Hv & _)|(l & Hin & _)].
  - exists l. now apply value_subject_in.
  - now exists l.
Qed.

(** X2.  The list of resolved entities never holds an entity twice, holds
    URI references only, and every entity in it is the subject of a label
    triple of the graph with a literal object. *)
Theorem resolved_entities_are_labelled_entities (ord : set_order)
        (question0 : string) (graph : Graph) :
  NoDup (_identify_all_entities ord question0 graph) /\
  forall e, In e (_identify_all_entities ord question0 graph) ->
    is_URIRef e = true /\
    exists label_text, In (e, RDFS_label, Literal label_text) graph.
Proof.
  destruct (identified_entity_set ord question0 graph) as [ND HU].
  split; [assumption|]. intros e He. split; [now apply HU|].
  apply (resolved_entity_has_label question0).
  unfold _identify_all_entities in He. now apply iterate_in in He.
Qed.

(** ** Empty labels and the empty question *)

Lemma contains_empty_needle (haystack : string) : contains "" haystack = true.
Proof. destruct haystack; reflexivity. Qed.

Lemma contains_empty_haystack (needle : string) :
  contains needle "" = true <-> needle = "".
Proof.
  destruct needle as [|c needle]; cbn; split; auto; discriminate.
Qed.

Lemma lower_is_empty (s : string) : lower s = "" <-> s = "".
Proof. destruct s; cbn; split; auto; discriminate. Qed.

Lemma synonym_keywords_not_empty (keyword : string) (labels : list string) :
  In (keyword, labels) synonym_map -> contains keyword "" = false.
Proof.
  intros H. cbn in H.
  repeat (destruct H as [[= <- <-]|H]; [reflexivity|]). destruct H.
Qed.

(** X3.  The substring test accepts the empty text: an entity whose label
    is the empty literal is resolved by every question, and the empty
    question resolves these entities and no other. *)
Theorem empty_label_and_empty_question (ord : set_order) (graph : Graph)
        (e : term) :
  (forall question0,
     is_URIRef e = true -> In (e, RDFS_label, Literal "") graph ->
     In e (_identify_all_entities ord question0 graph)) /\
  (In e (_identify_all_entities ord "" graph) <->
   is_URIRef e = true /\ In (e, RDFS_label, Literal "") graph).
Proof.
  unfold _identify_all_entities. split.
  - intros q Hu Hin. apply iterate_in, found_entities_in. right.
    exists "". repeat split; auto. apply contains_empty_needle.
  - rewrite iterate_in, found_entities_in. split.
    + intros [(k & ls & l & Hk & Hc & _)|(l & Hin & Hu & Hc)].
      * cbn [lower] in Hc. rewrite (synonym_keywords_not_empty _ _ Hk) in Hc.
        discriminate.
      * cbn [lower] in Hc. apply contains_empty_haystack in Hc.
        apply (proj1 (lower_is_empty l)) in Hc. subst l. auto.
    + intros [Hu Hin]. right. exists "". repeat split; auto.
Qed.

(** ** The search in the other direction *)

Lemma hop_between_sym (graph : Graph) (u x : term) (t : triple) :
  hop_between graph u x t -> hop_between graph x u t.
Proof. unfold hop_between. tauto. Qed.

Lemma walk_end_in_nodes (graph : Graph) (a b : term) (nodes : list term)
      (hops : path) :
  walk graph a b nodes hops -> In b nodes.
Proof.
  intros W. destruct W; [now left|]. apply in_app_iff. right. now left.
Qed.

Lemma walk_end_is_entity (graph : Graph) (a b : term) (nodes : list term)
      (hops : path) :
  walk graph a b nodes hops -> is_URIRef a = true -> is_URIRef b = true.
Proof. intros W Ha. destruct W; assumption. Qed.

Lemma walk_cons (graph : Graph) (a b c : term) (t : triple)
      (nodes : list term) (hops : path) :
  hop_between graph a b t -> is_URIRef b = true ->
  walk graph b c nodes hops ->
  walk graph a c (a :: nodes) (t :: hops).
Proof.
  intros Hh Hb W. induction W as [|c d nodes t' hops W IH Hh' Hd].
  - apply (walk_snoc graph a a b [a] t []); [constructor|assumption..].
  - apply (walk_snoc graph a c d (a :: nodes) t' (t :: hops)); auto.
Qed.

Lemma walk_rev (graph : Graph) (a b : term) (nodes : list term)
      (hops : path) :
  walk graph a b nodes hops -> is_URIRef a = true ->
  walk graph b a (rev nodes) (rev hops).
Proof.
  intros W Ha. induction W as [|b c nodes t hops W IH Hh Hc].
  - constructor.
  - rewrite !rev_app_distr. cbn.
    apply walk_cons with (b := b); auto.
    + now apply hop_between_sym.
    + eapply walk_end_is_entity; eauto.
Qed.

Lemma connection_rev (graph : Graph) (a b : term) (hops : path) :
  is_URIRef a = true ->
  connection graph a b hops -> connection graph b a (rev hops).
Proof.
  intros Ha [nodes W]. exists (rev nodes). now apply walk_rev.
Qed.

(** X4.  Between two entities the search finds a path in one direction
    exactly when it finds one in the other, and the two paths have the same
    number of hops. *)
Theorem search_direction_keeps_hop_count (graph : Graph) (a b : term) :
  is_URIRef a = true -> is_URIRef b = true ->
  option_map hop_count (_find_shortest_path graph a b)
  = option_map hop_count (_find_shortest_path graph b a).
Proof.
  assert (Half : forall x y p,
            is_URIRef x = true ->
            _find_shortest_path graph x y = Some p ->
            exists q, _find_shortest_path graph y x = Some q
                      /\ hop_count q <= hop_count p).
  { intros x y p Hx Hp.
    destruct (find_sound _ _ _ _ Hp) as (nodes & W & _).
    assert (C : connection graph y x (rev p))
      by (apply connection_rev; [assumption|now exists nodes]).
    destruct (find_complete _ _ _ _ C) as [q Hq]. exists q.
    split; [assumption|].
    pose proof (find_minimal _ _ _ _ Hq _ C) as Hm.
    unfold hop_count in *. now rewrite length_rev in Hm. }
  intros Ha Hb.
  destruct (_find_shortest_path graph a b) as [p|] eqn:Ep.
  - destruct (Half _ _ _ Ha Ep) as (q & Eq & Hle). rewrite Eq.
    destruct (Half _ _ _ Hb Eq) as (p' & Ep' & Hle').
    rewrite Ep in Ep'. injection Ep' as <-. cbn. f_equal. lia.
  - destruct (_find_shortest_path graph b a) as [q|] eqn:Eq; [|reflexivity].
    destruct (Half _ _ _ Hb Eq) as (p' & Ep' & _). congruence.
Qed.

Lemma search_direction_keeps_hop_count_witness :
  option_map hop_count
    (_find_shortest_path Fixture.direct_and_detour Fixture.C Fixture.A)
  = option_map hop_count
      (_find_shortest_path Fixture.direct_and_detour Fixture.A Fixture.C).
Proof.
  apply search_direction_keeps_hop_count; reflexivity.
Defined.

(** ** The search loop ends *)

Lemma bfs_loop_more_fuel (graph : Graph) (e : term) (fuel : nat) :
  forall extra queue visited,
    bfs_loop fuel graph e queue visited <> OutOfFuel ->
    bfs_loop (fuel + extra) graph e queue visited
    = bfs_loop fuel graph e queue visited.
Proof.
  induction fuel as [|fuel IH]; intros extra queue visited H.
  - now contradiction H.
  - destruct queue as [|[current p0] queue]; [reflexivity|].
    cbn [Nat.add]. rewrite !bfs_loop_step in *.
    destruct (explore e p0 _ queue visited) as [r|[q2 v2]];
      [reflexivity|].
    now apply IH.
Qed.

(** X5.  The [while] loop of the search ends: started from the initial
    queue it makes at most [2 * len(graph) + 2] iterations, and allowing it
    more iterations does not change what it returns. *)
Theorem search_loop_ends (graph : Graph) (start_node end_node : term)
        (extra : nat) :
  bfs_loop (search_fuel graph) graph end_node
           [(start_node, [])] [start_node] <> OutOfFuel /\
  bfs_loop (search_fuel graph + extra) graph end_node
           [(start_node, [])] [start_node]
  = bfs_loop (search_fuel graph) graph end_node
             [(start_node, [])] [start_node].
Proof.
  pose proof (search_completes graph start_node end_node) as T.
  split; [assumption|]. now apply bfs_loop_more_fuel.
Qed.

(** ** The empty path and the truth test of the caller *)

(** X6.  The search returns the empty path only from a node to itself; so
    between different nodes the caller's test [if path_found:] succeeds
    exactly when the two are connected. *)
Theorem empty_path_only_for_same_node (graph : Graph)
        (start_node end_node : term) :
  (_find_shortest_path graph start_node end_node = Some [] <->
   start_node = end_node) /\
  (start_node <> end_node ->
   (path_truthy (_find_shortest_path graph start_node end_node) = true <->
    exists w, connection graph start_node end_node w)).
Proof.
  assert (Hempty : _find_shortest_path graph start_node end_node = Some [] ->
                   start_node = end_node).
  { intros H. destruct (find_sound _ _ _ _ H) as (nodes & W & _).
    apply walk_no_hops in W as [E _]. now symmetry. }
  split.
  - split; [exact Hempty|]. intros <-. apply find_same_node.
  - intros Hne. split.
    + intros Ht.
      destruct (_find_shortest_path graph start_node end_node) as [p|] eqn:E;
        [|discriminate].
      destruct (find_sound _ _ _ _ E) as (nodes & W & _).
      exists p. now exists nodes.
    + intros [w C]. destruct (find_complete _ _ _ _ C) as [p Hp].
      rewrite Hp. destruct p as [|t p]; [|reflexivity].
      exfalso. apply Hne. apply Hempty. exact Hp.
Qed.

(** ** The pair loop and the search together *)

Lemma try_pairs_value (graph : Graph) (pairs : list (term * term)) :
  forall init,
    fst (try_pairs graph pairs init) = init \/
    exists s e, In (s, e) pairs /\
                fst (try_pairs graph pairs init)
                = _find_shortest_path graph s e.
Proof.
  induction pairs as [|[s e] pairs IH]; intros init; cbn; [now left|].
  destruct (path_truthy (_find_shortest_path graph s e)) eqn:T; cbn.
  - right. exists s, e. auto.
  - specialize (IH (_find_shortest_path graph s e)).
    destruct (try_pairs graph pairs (_find_shortest_path graph s e))
      as [final calls]. cbn in *.
    destruct IH as [->|(s' & e' & Hin & ->)].
    + right. exists s, e. auto.
    + right. exists s', e'. auto.
Qed.

Lemma find_distinct_not_empty (graph : Graph) (s e : term) :
  s <> e -> _find_shortest_path graph s e <> Some [].
Proof.
  intros Hne H. destruct (find_sound _ _ _ _ H) as (nodes & W & _).
  apply walk_no_hops in W as [E _]. congruence.
Qed.

(** X7.  Step 2 finds a path exactly when some two different resolved
    entities are connected in the graph.  The path found joins two
    different resolved entities and no connection of these two has fewer
    hops.  Step 2 never ends with an empty path. *)
Theorem path_found_iff_some_pair_connected (ord : set_order)
        (question0 : string) (graph : Graph) :
  let ents := _identify_all_entities ord question0 graph in
  (path_truthy (selected_path ord question0 graph) = true <->
   exists a b w, In a ents /\ In b ents /\ a <> b /\
                 connection graph a b w) /\
  (forall p, selected_path ord question0 graph = Some p ->
     exists s e, In s ents /\ In e ents /\ s <> e /\
                 connection graph s e p /\
                 forall w, connection graph s e w ->
                           hop_count p <= hop_count w) /\
  selected_path ord question0 graph <> Some [].
Proof.
  intros ents. destruct (identified_entity_set ord question0 graph) as [ND _].
  fold ents in ND.
  assert (Hnot : selected_path ord question0 graph <> Some []).
  { unfold selected_path, select_path. fold ents.
    destruct (2 <=? List.length ents)%nat; [|discriminate].
    destruct (try_pairs_value graph (permutations2 ents) None)
      as [->|(s & e & Hin & ->)]; [discriminate|].
    apply permutations2_in in Hin as (_ & _ & Hne); [|assumption].
    now apply find_distinct_not_empty. }
  assert (Horigin : forall p, selected_path ord question0 graph = Some p ->
            exists s e, In s ents /\ In e ents /\ s <> e /\
                        _find_shortest_path graph s e = Some p).
  { intros p Hp.
    assert (Ht : path_truthy (selected_path ord question0 graph) = true).
    { destruct p; [now contradiction Hnot|now rewrite Hp]. }
    destruct (selected_path_origin graph ents ND Ht)
      as (s & e & Hs & He & Hne & Hf).
    exists s, e. repeat split; auto.
    unfold selected_path in Hp. fold ents in Hp. congruence. }
  split; [|split; [|exact Hnot]].
  - split.
    + intros Ht.
      destruct (selected_path ord question0 graph) as [p|] eqn:Hp;
        [|discriminate].
      destruct (Horigin p eq_refl) as (s & e & Hs & He & Hne & Hf).
      destruct (find_sound _ _ _ _ Hf) as (nodes & W & _).
      exists s, e, p. repeat split; auto. now exists nodes.
    + intros (a & b & w & Ha & Hb & Hne & C).
      assert (Hpair : In (a, b) (permutations2 ents))
        by (apply permutations2_in; auto).
      assert (Hlen : (2 <=? List.length ents)%nat = true).
      { apply Nat.leb_le. destruct ents as [|x [|y l]]; cbn; try lia.
        - destruct Ha.
        - destruct Ha as [<-|[]], Hb as [<-|[]]. congruence. }
      unfold selected_path, select_path. fold ents. rewrite Hlen.
      destruct (try_pairs_spec graph (permutations2 ents) None eq_refl)
        as (rest & Hperm & [(Ht & _)|(_ & -> & Hall)]); [assumption|].
      rewrite app_nil_r in Hperm. rewrite <- Hperm in Hall.
      rewrite Forall_forall in Hall. specialize (Hall _ Hpair).
      unfold fruitless in Hall. cbn in Hall.
      destruct (find_complete _ _ _ _ C) as [p Hp]. rewrite Hp in Hall.
      destruct p; [|discriminate].
      exfalso. now apply (find_distinct_not_empty graph a b Hne).
  - intros p Hp. destruct (Horigin p Hp) as (s & e & Hs & He & Hne & Hf).
    exists s, e. repeat split; auto.
    + destruct (find_sound _ _ _ _ Hf) as (nodes & W & _). now exists nodes.
    + now apply find_minimal.
Qed.

Lemma pairs_from_length {A : Type} (after : list A) :
  forall before : list A,
    List.length (pairs_from before after)
    = List.length after * (List.length before + List.length after - 1).
Proof.
  induction after as [|x rest IH]; intros before; cbn [pairs_from];
    [reflexivity|].
  rewrite length_app, length_map, IH, !length_app. cbn [List.length]. nia.
Qed.

(** X8.  With [n] resolved entities step 2 makes at most [n * (n - 1)]
    searches, and exactly that many when it finds no path. *)
Theorem searches_are_bounded (ord : set_order) (question0 : string)
        (graph : Graph) :
  let n := List.length (_identify_all_entities ord question0 graph) in
  List.length (searches_made ord question0 graph) <= n * (n - 1) /\
  (path_truthy (selected_path ord question0 graph) = false ->
   List.length (searches_made ord question0 graph) = n * (n - 1)).
Proof.
  intros n. unfold searches_made, selected_path, select_path.
  set (ents := _identify_all_entities ord question0 graph) in *.
  assert (Hall : List.length (permutations2 ents) = n * (n - 1)).
  { unfold permutations2. rewrite pairs_from_length. cbn. reflexivity. }
  destruct (2 <=? List.length ents)%nat eqn:L.
  - destruct (try_pairs_spec graph (permutations2 ents) None eq_refl)
      as (rest & Hperm & H).
    rewrite Hperm, length_app in Hall. split; [lia|].
    intros Hf. destruct H as [(Ht & _)|(_ & -> & _)]; [congruence|].
    cbn in Hall. lia.
  - apply Nat.leb_gt in L. fold n in L. cbn. split; [lia|].
    intros _. destruct n as [|[|n]]; cbn; lia.
Qed.

(** ** The fallback with several entities *)

(** X9.  When entities were resolved and step 2 found no path, the facts
    are exactly the triples whose subject is the first entity of the
    resolver's list, each once, and a returned report has no path line. *)
Theorem no_path_falls_back_to_first_entity (ord : set_order)
        (question0 : string) (graph : Graph) (e : term) (rest : list term) :
  _identify_all_entities ord question0 graph = e :: rest ->
  path_truthy (selected_path ord question0 graph) = false ->
  NoDup (deduced_facts ord question0 graph) /\
  (forall t, In t (deduced_facts ord question0 graph) <->
             In t graph /\ t_subject t = e) /\
  (forall r, find_reasoning_path ord question0 graph = Returned r ->
             chemin_trouve r = []).
Proof.
  intros E Hf.
  assert (Hfacts : deduced_facts ord question0 graph
                   = neighborhood_regime graph (e :: rest)).
  { unfold deduced_facts. rewrite E.
    destruct (selected_path ord question0 graph) as [[|hop hops]|];
      [reflexivity|discriminate|reflexivity]. }
  split; [|split].
  - rewrite Hfacts. apply neighborhood_regime_nodup.
  - intros t. rewrite Hfacts. apply neighborhood_regime_in.
  - intros r Hr. apply reported_facts in Hr; [|now rewrite E].
    destruct Hr as [_ Hpath]. rewrite Hf in Hpath. congruence.
Qed.

Lemma no_path_falls_back_to_first_entity_witness :
  NoDup (deduced_facts reverse_order Fixture.question_unrelated
                       Fixture.unrelated) /\
  (forall t, In t (deduced_facts reverse_order Fixture.question_unrelated
                                 Fixture.unrelated) <->
             In t Fixture.unrelated /\ t_subject t = Fixture.B) /\
  (forall r, find_reasoning_path reverse_order Fixture.question_unrelated
                                 Fixture.unrelated = Returned r ->
             chemin_trouve r = []).
Proof.
  apply (no_path_falls_back_to_first_entity reverse_order
           Fixture.question_unrelated Fixture.unrelated
           Fixture.B [Fixture.A]); reflexivity.
Defined.

(** ** Facts and resolved entities *)

Lemma comprehension_forall2 {A B : Type} (f : A -> outcome B) (xs : list A) :
  forall ys, comprehension f xs = Returned ys ->
             Forall2 (fun x y => f x = Returned y) xs ys.
Proof.
  induction xs as [|x xs IH]; cbn; intros ys.
  - intros [= <-]. constructor.
  - destruct (f x) as [y|] eqn:Fx; [|discriminate]. cbn.
    destruct (comprehension f xs) as [ys'|]; [|discriminate]. cbn.
    intros [= <-]. constructor; auto.
Qed.

Lemma comprehension_length {A B : Type} (f : A -> outcome B) (xs : list A)
      (ys : list B) :
  comprehension f xs = Returned ys -> List.length ys = List.length xs.
Proof.
  intros H. apply comprehension_forall2 in H.
  symmetry. eapply Forall2_length; eauto.
Qed.

Lemma deduced_facts_not_empty (ord : set_order) (question0 : string)
      (graph : Graph) :
  _identify_all_entities ord question0 graph <> [] ->
  deduced_facts ord question0 graph <> [].
Proof.
  intros Hne.
  destruct (_identify_all_entities ord question0 graph) as [|e rest] eqn:E;
    [congruence|].
  assert (He : In e (found_entities question0 graph)).
  { unfold _identify_all_entities in E.
    apply (iterate_in ord). rewrite E. now left. }
  destruct (resolved_entity_has_label _ _ _ He) as [l Hl].
  unfold deduced_facts. rewrite E.
  destruct (selected_path ord question0 graph) as [[|hop hops]|].
  - intros H.
    assert (Hin : In (e, RDFS_label, Literal l)
                     (neighborhood_regime graph (e :: rest)))
      by (apply neighborhood_regime_in; auto).
    cbn [collect_facts] in H. rewrite H in Hin. destruct Hin.
  - intros H.
    assert (Hin : In hop (path_regime ord graph (hop :: hops)))
      by (apply path_regime_in; left; now left).
    cbn [collect_facts] in H. rewrite H in Hin. destruct Hin.
  - intros H.
    assert (Hin : In (e, RDFS_label, Literal l)
                     (neighborhood_regime graph (e :: rest)))
      by (apply neighborhood_regime_in; auto).
    cbn [collect_facts] in H. rewrite H in Hin. destruct Hin.
Qed.

Lemma unresolved_question_gives_empty_report_aux (ord : set_order)
      (question0 : string) (graph : Graph) :
  _identify_all_entities ord question0 graph = [] ->
  find_reasoning_path ord question0 graph
  = Returned {| question := question0;
                entites_initiales := [];
                chemin_trouve := [];
                faits_deduits := [] |}.
Proof.
  intros E. rewrite find_reasoning_path_steps. now rewrite E.
Qed.

(** X10.  A returned report has no fact exactly when no entity was
    resolved: a resolved entity always brings at least its label triple.
    The report has one fact line per collected triple, one path line per
    hop of the path found, and one label per resolved entity. *)
Theorem report_without_facts_iff_unresolved (ord : set_order)
        (question0 : string) (graph : Graph) (r : report) :
  find_reasoning_path ord question0 graph = Returned r ->
  (faits_deduits r = [] <->
   _identify_all_entities ord question0 graph = []) /\
  question r = question0 /\
  List.length (entites_initiales r)
  = List.length (_identify_all_entities ord question0 graph) /\
  (_identify_all_entities ord question0 graph <> [] ->
   List.length (faits_deduits r)
   = List.length (deduced_facts ord question0 graph) /\
   List.length (chemin_trouve r)
   = match selected_path ord question0 graph with
     | Some p => List.length p
     | None => 0
     end).
Proof.
  intros Hr.
  destruct (_identify_all_entities ord question0 graph) as [|e rest] eqn:E.
  - rewrite (unresolved_question_gives_empty_report_aux ord question0 graph E)
      in Hr.
    injection Hr as <-. cbn. repeat split; auto; congruence.
  - assert (Hne : _identify_all_entities ord question0 graph <> [])
      by (rewrite E; discriminate).
    pose proof (deduced_facts_not_empty _ _ _ Hne) as Hfacts.
    pose proof Hr as Hr'. apply reported_facts in Hr'; [|assumption].
    destruct Hr' as [Hf Hp].
    apply comprehension_length in Hf. rewrite iterate_length in Hf.
    rewrite find_reasoning_path_steps, E in Hr.
    apply format_report_fields in Hr as (Hq & Hl & _ & _).
    apply comprehension_length in Hl.
    split; [|split; [assumption|split; [exact Hl|]]].
    + split; [|discriminate]. intros H. rewrite H in Hf. cbn in Hf.
      destruct (deduced_facts ord question0 graph); [congruence|discriminate].
    + intros _. split; [assumption|].
      destruct (selected_path ord question0 graph) as [[|hop hops]|];
        cbn [path_truthy] in Hp.
      * now injection Hp as <-.
      * now apply comprehension_length in Hp.
      * now injection Hp as <-.
Qed.

Lemma report_without_facts_iff_unresolved_witness :
  let r := {| question := Fixture.question_no_entity;
              entites_initiales := [];
              chemin_trouve := [];
              faits_deduits := [] |} in
  find_reasoning_path insertion_order Fixture.question_no_entity
                      Fixture.ontology = Returned r /\
  (faits_deduits r = [] <->
   _identify_all_entities insertion_order Fixture.question_no_entity
                          Fixture.ontology = []).
Proof.
  cbv zeta. split; [reflexivity|].
  apply (report_without_facts_iff_unresolved insertion_order
           Fixture.question_no_entity Fixture.ontology).
  reflexivity.
Defined.

(** ** Labels *)

Lemma split_on_not_nil (c : ascii) (s : string) : split_on c s <> [].
Proof.
  destruct s as [|x s]; cbn; [discriminate|].
  destruct (Ascii.eqb x c); [discriminate|].
  destruct (split_on c s); discriminate.
Qed.

Lemma split_on_segments (c : ascii) (s : string) :
  Forall (fun seg => has_char c seg = false) (split_on c s).
Proof.
  induction s as [|x s IH]; cbn.
  - repeat constructor.
  - destruct (Ascii.eqb x c) eqn:E.
    + constructor; [reflexivity|assumption].
    + destruct (split_on c s) as [|seg segs].
      * constructor; [|constructor]. cbn. now rewrite E.
      * inversion IH as [|? ? Hseg Hsegs]; subst.
        constructor; [|assumption]. cbn. now rewrite E.
Qed.

Lemma last_cons_cons {A : Type} (x y : A) (l : list A) (d : A) :
  List.last (x :: y :: l) d = List.last (y :: l) d.
Proof. reflexivity. Qed.

Lemma split_on_single (c : ascii) (s : string) :
  forall seg, split_on c s = [seg] -> seg = s.
Proof.
  induction s as [|x s IH]; cbn; intros seg.
  - now intros [= <-].
  - pose proof (split_on_not_nil c s) as Hn.
    destruct (Ascii.eqb x c).
    + destruct (split_on c s); [congruence|discriminate].
    + destruct (split_on c s) as [|seg' [|seg2 segs]]; [congruence| |].
      * intros [= <-]. now rewrite (IH seg' eq_refl).
      * discriminate.
Qed.

Lemma last_segment_suffix (c : ascii) (s : string) :
  exists before, s = (before ++ last_segment c s)%string.
Proof.
  unfold last_segment. induction s as [|x s IH]; cbn.
  - now exists "".
  - pose proof (split_on_not_nil c s) as Hn.
    pose proof (split_on_single c s) as Hs.
    destruct IH as [before IH].
    destruct (Ascii.eqb x c).
    + destruct (split_on c s) as [|seg segs]; [congruence|].
      rewrite last_cons_cons. exists (String x before). cbn. now f_equal.
    + destruct (split_on c s) as [|seg [|seg' segs]]; [congruence| |].
      * exists "". cbn. now rewrite (Hs seg eq_refl).
      * rewrite !last_cons_cons in *. exists (String x before). cbn.
        now f_equal.
Qed.

Lemma last_segment_clean (c : ascii) (s : string) :
  has_char c (last_segment c s) = false.
Proof.
  unfold last_segment. pose proof (split_on_segments c s) as H.
  pose proof (split_on_not_nil c s) as Hn.
  rewrite Forall_forall in H. apply H.
  destruct (split_on c s) as [|seg segs]; [congruence|].
  clear. revert seg. induction segs as [|y segs IH]; intros seg.
  - now left.
  - rewrite last_cons_cons. right. apply IH.
Qed.

Lemma has_char_append (c : ascii) (a b : string) :
  has_char c (a ++ b)%string = has_char c a || has_char c b.
Proof.
  induction a as [|x a IH]; cbn; [reflexivity|].
  rewrite IH. now rewrite orb_assoc.
Qed.

Lemma string_append_assoc (a b c : string) :
  ((a ++ b) ++ c)%string = (a ++ (b ++ c))%string.
Proof. induction a as [|x a IH]; cbn; [reflexivity|now rewrite IH]. Qed.

Lemma last_segment_without_separator (c : ascii) (s : string) :
  has_char c s = false -> last_segment c s = s.
Proof.
  unfold last_segment. induction s as [|x s IH]; cbn; [reflexivity|].
  intros H. apply orb_false_iff in H as [Hx Hs]. rewrite Hx.
  specialize (IH Hs). pose proof (split_on_not_nil c s) as Hn.
  destruct (split_on c s) as [|seg [|seg' segs]] eqn:E; [congruence| |].
  - cbn in *. now subst.
  - exfalso. pose proof (split_on_segments c s) as F. rewrite E in F.
    clear -E Hs.
    assert (G : forall t, has_char c t = false ->
                          List.length (split_on c t) = 1).
    { clear. induction t as [|y t IHt]; cbn; [reflexivity|].
      intros H. apply orb_false_iff in H as [Hy Ht]. rewrite Hy.
      specialize (IHt Ht).
      destruct (split_on c t) as [|a [|b l]]; cbn in *; try reflexivity;
        discriminate. }
    specialize (G s Hs). rewrite E in G. discriminate.
Qed.

(** X11.  The name derived for a URI reference without a label holds no
    ['#'] and no ['/'], is the end of the URI, and is the whole URI when
    the URI holds neither character. *)
Theorem unlabelled_node_gets_short_name (graph : Graph) (iri : string) :
  value_object graph (URIRef iri) RDFS_label = None ->
  exists name,
    _get_node_label (URIRef iri) graph = Returned name /\
    has_char "#" name = false /\
    has_char "/" name = false /\
    (exists before, iri = (before ++ name)%string) /\
    (has_char "#" iri = false -> has_char "/" iri = false -> name = iri).
Proof.
  intros Hv. exists (short_name iri). unfold _get_node_label. cbn.
  rewrite Hv. split; [reflexivity|]. unfold short_name.
  destruct (last_segment_suffix "#" iri) as [b1 H1].
  destruct (last_segment_suffix "/" (last_segment "#" iri)) as [b2 H2].
  split; [|split; [|split]].
  - pose proof (last_segment_clean "#" iri) as Hc.
    rewrite H2, has_char_append in Hc. now apply orb_false_iff in Hc.
  - apply last_segment_clean.
  - exists (b1 ++ b2)%string. rewrite string_append_assoc.
    now rewrite <- H2.
  - intros Hh Hs. rewrite (last_segment_without_separator "#" iri Hh).
    now apply last_segment_without_separator.
Qed.

Lemma unlabelled_node_gets_short_name_witness :
  exists name,
    _get_node_label Fixture.estResoluPar Fixture.ontology = Returned name /\
    has_char "#" name = false /\
    has_char "/" name = false /\
    (exists before,
       "http://example.org/hpc#estResoluPar" = (before ++ name)%string) /\
    (has_char "#" "http://example.org/hpc#estResoluPar" = false ->
     has_char "/" "http://example.org/hpc#estResoluPar" = false ->
     name = "http://example.org/hpc#estResoluPar").
Proof.
  apply (unlabelled_node_gets_short_name Fixture.ontology
           "http://example.org/hpc#estResoluPar").
  reflexivity.
Defined.

(** [_get_node_label] raises exactly on a URI reference whose first label
    in the graph is truthy and is not a literal. *)
Lemma label_raises_exactly_on_non_literal_label (graph : Graph)
        (node_uri : term) :
  _get_node_label node_uri graph = AttributeError <->
  is_URIRef node_uri = true /\
  exists label, value_object graph node_uri RDFS_label = Some label /\
                truthy label = true /\ is_Literal label = false.
Proof.
  unfold _get_node_label. destruct (is_URIRef node_uri); cbn.
  - destruct (value_object graph node_uri RDFS_label) as [label|].
    + destruct (truthy label) eqn:T.
      * destruct label; cbn; split; try discriminate; eauto;
          intros (_ & l & [= <-] & _ & H); discriminate.
      * split; [discriminate|].
        intros (_ & l & [= <-] & H & _). congruence.
    + split; [discriminate|]. intros (_ & l & H & _). discriminate.
  - split; [discriminate|]. intros [H _]. discriminate.
Qed.

Lemma fixture_ontology_well_labelled : well_labelled Fixture.ontology.
Proof.
  intros t Hin Hp. cbn in Hin.
  repeat (destruct Hin as [<-|Hin]; [first [now left|discriminate Hp]|]).
  destruct Hin.
Qed.

(** X12.  On every graph, [_get_node_label] raises exactly on a URI
    reference whose first label in the graph is truthy and is not a
    literal.  So on a graph in which the object of every label triple is a
    literal (or is falsy), no label lookup raises and [find_reasoning_path]
    returns a report for every question. *)
Theorem literal_labels_never_raise (graph : Graph) :
  (forall node,
     _get_node_label node graph = AttributeError <->
     is_URIRef node = true /\
     exists label, value_object graph node RDFS_label = Some label /\
                   truthy label = true /\ is_Literal label = false) /\
  (well_labelled graph ->
   (forall node, exists l, _get_node_label node graph = Returned l) /\
   (forall ord question0,
      exists r, find_reasoning_path ord question0 graph = Returned r)).
Proof.
  split.
  - intros node. apply label_raises_exactly_on_non_literal_label.
  - intros WL. split.
    + intros node. now apply get_node_label_returns.
    + intros ord q. now apply report_is_returned.
Qed.

(** The two halves at work: the label lookup raises on a node labelled by a
    URI reference, and the fixture ontology, whose labels are literals,
    never raises. *)
Lemma literal_labels_never_raise_witness :
  _get_node_label Fixture.A [ (Fixture.A, RDFS_label, Fixture.B) ]
  = AttributeError /\
  well_labelled Fixture.ontology /\
  (forall node, exists l, _get_node_label node Fixture.ontology = Returned l)
  /\
  (forall ord question0,
     exists r,
       find_reasoning_path ord question0 Fixture.ontology = Returned r).
Proof.
  split; [|split; [exact fixture_ontology_well_labelled|]].
  - apply (proj1 (literal_labels_never_raise
                    [ (Fixture.A, RDFS_label, Fixture.B) ])).
    split; [reflexivity|]. exists Fixture.B. repeat split.
  - apply (proj2 (literal_labels_never_raise Fixture.ontology)).
    exact fixture_ontology_well_labelled.
Defined.

(** ** Which hop joins two neighbours *)

Lemma explore_reaches_end (e : term) (p : path)
      (cands : list (term * triple)) :
  forall queue visited hop,
    In (e, hop) cands -> is_URIRef e = true -> ~ In e visited ->
    exists hop', In (e, hop') cands /\
                 explore e p cands queue visited = inl (p ++ [hop']).
Proof.
  induction cands as [|[n h] cands IH]; intros queue visited hop Hin Hu Hv;
    [destruct Hin|].
  cbn [explore]. destruct (term_eq_dec n e) as [->|Hne].
  - exists h. split; [now left|].
    rewrite Hu, (proj2 (mem_false e visited) Hv), term_eqb_refl.
    reflexivity.
  - destruct Hin as [[= -> _]|Hin]; [congruence|].
    apply term_eqb_false in Hne as Hneb. rewrite Hneb.
    destruct (is_URIRef n && negb (mem n visited)).
    + destruct (IH (queue ++ [(n, p ++ [h])]) (n :: visited) hop Hin Hu)
        as (hop' & Hin' & ->).
      { intros [E|H]; [now apply term_eqb_false in Hneb|contradiction]. }
      exists hop'. split; [now right|reflexivity].
    + destruct (IH queue visited hop Hin Hu Hv) as (hop' & Hin' & ->).
      exists hop'. split; [now right|reflexivity].
Qed.

(** X13.  When the graph stores an edge from the start to the end entity,
    the search returns one stored edge from the start to the end: outgoing
    edges are tried before incoming ones, so an edge stored the other way
    is not chosen. *)
Theorem outgoing_edge_is_preferred (graph : Graph)
        (start_node end_node rel : term) :
  start_node <> end_node ->
  is_URIRef end_node = true ->
  In (start_node, rel, end_node) graph ->
  exists rel',
    In (start_node, rel', end_node) graph /\
    _find_shortest_path graph start_node end_node
    = Some [(start_node, rel', end_node)].
Proof.
  intros Hne Hu Hin.
  assert (Hc : In (end_node, (start_node, rel, end_node))
                  (outgoing graph start_node))
    by (apply in_outgoing; auto).
  destruct (explore_reaches_end end_node [] (outgoing graph start_node)
              [] [start_node] _ Hc Hu) as (hop & Hhop & Hex).
  { intros [E|[]]. contradiction. }
  apply in_outgoing in Hhop as (Hg & Hs & Ho).
  destruct hop as [[s p] o]. cbn in Hs, Ho. subst s o.
  exists p. split; [assumption|].
  unfold _find_shortest_path, search_fuel.
  apply term_eqb_false in Hne. rewrite Hne.
  replace (2 * List.length graph + 2) with (S (2 * List.length graph + 1))
    by lia.
  rewrite bfs_loop_step, explore_app.
  match goal with
  | |- context [explore ?e ?p0 (outgoing ?g ?c) ?q ?v] =>
      replace (explore e p0 (outgoing g c) q v)
        with (@inl path (list task * list term)
                   ([] ++ [(start_node, p, end_node)]))
        by (symmetry; exact Hex)
  end.
  reflexivity.
Qed.

Lemma outgoing_edge_is_preferred_witness :
  exists rel',
    In (Fixture.A, rel', Fixture.B)
       [(Fixture.B, Fixture.via, Fixture.A);
        (Fixture.A, Fixture.rel, Fixture.B)] /\
    _find_shortest_path
      [(Fixture.B, Fixture.via, Fixture.A);
       (Fixture.A, Fixture.rel, Fixture.B)] Fixture.A Fixture.B
    = Some [(Fixture.A, rel', Fixture.B)].
Proof.
  apply (outgoing_edge_is_preferred _ Fixture.A Fixture.B Fixture.rel).
  - discriminate.
  - reflexivity.
  - right. now left.
Defined.

(** ** The search and the content of the graph *)

Lemma walk_incl (graph graph' : Graph) (a b : term) (nodes : list term)
      (hops : path) :
  incl graph graph' ->
  walk graph a b nodes hops -> walk graph' a b nodes hops.
Proof.
  intros Hi W. induction W as [|b c nodes t hops W IH Hh Hc];
    [constructor|].
  econstructor; eauto. destruct Hh as [Hin Hd]. split; auto.
Qed.

Lemma find_in_larger_graph (graph graph' : Graph) (a b : term) (p : path) :
  incl graph graph' ->
  _find_shortest_path graph a b = Some p ->
  exists p', _find_shortest_path graph' a b = Some p'
             /\ hop_count p' <= hop_count p.
Proof.
  intros Hi Hp. destruct (find_sound _ _ _ _ Hp) as (nodes & W & _).
  assert (C : connection graph' a b p)
    by (exists nodes; eapply walk_incl; eauto).
  destruct (find_complete _ _ _ _ C) as [p' Hp']. exists p'.
  split; [assumption|]. now apply (find_minimal _ _ _ _ Hp').
Qed.

(** X14.  Adding triples to the graph never loses a path and never makes
    the path found longer; hence two graphs that hold the same triples, in
    whatever order, give paths of the same length. *)
Theorem more_triples_never_lengthen_the_path (graph graph' : Graph)
        (start_node end_node : term) :
  incl graph graph' ->
  (forall p, _find_shortest_path graph start_node end_node = Some p ->
     exists p', _find_shortest_path graph' start_node end_node = Some p'
                /\ hop_count p' <= hop_count p) /\
  (incl graph' graph ->
   option_map hop_count (_find_shortest_path graph start_node end_node)
   = option_map hop_count (_find_shortest_path graph' start_node end_node)).
Proof.
  intros Hi. split; [intros p; now apply find_in_larger_graph|].
  intros Hi'.
  destruct (_find_shortest_path graph start_node end_node) as [p|] eqn:Ep.
  - destruct (find_in_larger_graph _ _ _ _ _ Hi Ep) as (p' & Ep' & Hle).
    rewrite Ep'.
    destruct (find_in_larger_graph _ _ _ _ _ Hi' Ep') as (q & Eq & Hle').
    rewrite Ep in Eq. injection Eq as <-. cbn. f_equal. lia.
  - destruct (_find_shortest_path graph' start_node end_node) as [p'|] eqn:Ep';
      [|reflexivity].
    destruct (find_in_larger_graph _ _ _ _ _ Hi' Ep') as (q & Eq & _).
    congruence.
Qed.

Lemma more_triples_never_lengthen_the_path_witness :
  (forall p,
     _find_shortest_path [(Fixture.A, Fixture.via, Fixture.C);
                          (Fixture.C, Fixture.via, Fixture.B)]
                         Fixture.A Fixture.B = Some p ->
     exists p',
       _find_shortest_path Fixture.direct_and_detour Fixture.A Fixture.B
       = Some p' /\ hop_count p' <= hop_count p) /\
  (incl Fixture.direct_and_detour
        [(Fixture.A, Fixture.via, Fixture.C);
         (Fixture.C, Fixture.via, Fixture.B)] ->
   option_map hop_count
     (_find_shortest_path [(Fixture.A, Fixture.via, Fixture.C);
                           (Fixture.C, Fixture.via, Fixture.B)]
                          Fixture.A Fixture.B)
   = option_map hop_count
       (_find_shortest_path Fixture.direct_and_detour Fixture.A Fixture.B)).
Proof.
  apply more_triples_never_lengthen_the_path.
  intros t [<-|[<-|[]]]; cbn; auto.
Defined.

(** ** The case of the question *)

Lemma ascii_lower_idempotent (c : ascii) :
  ascii_lower (ascii_lower c) = ascii_lower c.
Proof.
  destruct c as [[] [] [] [] [] [] [] []]; reflexivity.
Qed.

Lemma lower_idempotent (s : string) : lower (lower s) = lower s.
Proof.
  induction s as [|c s IH]; cbn; [reflexivity|].
  now rewrite ascii_lower_idempotent, IH.
Qed.

(** X15.  The resolver does not look at the case of the ASCII letters of
    the question: a question and its lowercased form resolve the same
    entities, select the same path and collect the same facts. *)
Theorem question_case_is_ignored (ord : set_order) (question0 : string)
        (graph : Graph) :
  _identify_all_entities ord (lower question0) graph
  = _identify_all_entities ord question0 graph /\
  selected_path ord (lower question0) graph
  = selected_path ord question0 graph /\
  deduced_facts ord (lower question0) graph
  = deduced_facts ord question0 graph.
Proof.
  assert (E : _identify_all_entities ord (lower question0) graph
              = _identify_all_entities ord question0 graph).
  { unfold _identify_all_entities, found_entities.
    now rewrite lower_idempotent. }
  unfold deduced_facts, selected_path. rewrite E. auto.
Qed.

(** ** Texts and their code points *)

Lemma split_chars_shape (s : string) :
  all_continuation (fst (split_chars s)) = true /\
  Forall (fun c => code_point c = true) (snd (split_chars s)).
Proof.
  induction s as [|c s [IH1 IH2]]; cbn; [auto|].
  destruct (split_chars s) as [cont cs]. cbn in *.
  destruct (is_continuation c) eqn:E; cbn.
  - rewrite E. auto.
  - split; [reflexivity|]. constructor; [|assumption].
    cbn. now rewrite E.
Qed.

Lemma chars_chars_ok (s : string) : chars_ok (chars s).
Proof.
  unfold chars. destruct (split_chars_shape s) as [H1 H2].
  destruct (split_chars s) as [cont cs]. cbn in *.
  destruct cont as [|c cont].
  - destruct cs as [|ch cs]; cbn; [exact I|].
    inversion H2; subst. auto.
  - cbn. split; [|assumption]. right. split; [discriminate|assumption].
Qed.

Lemma split_chars_text (cs : list string) :
  Forall (fun c => code_point c = true) cs ->
  forall k, all_continuation k = true ->
            split_chars (k ++ text cs)%string = (k, cs).
Proof.
  unfold text. induction 1 as [|ch cs Hch Hcs IH]; intros k Hk.
  - cbn [fold_right]. induction k as [|c k IHk]; [reflexivity|].
    cbn in Hk. apply andb_true_iff in Hk as [Hc Hk].
    cbn [append split_chars]. now rewrite (IHk Hk), Hc.
  - cbn [fold_right]. induction k as [|c k IHk].
    + destruct ch as [|c r]; [discriminate|]. cbn in Hch.
      apply andb_true_iff in Hch as [Hc Hr]. apply negb_true_iff in Hc.
      cbn [append split_chars]. rewrite (IH r Hr), Hc. reflexivity.
    + cbn in Hk. apply andb_true_iff in Hk as [Hc Hk].
      cbn [append split_chars]. now rewrite (IHk Hk), Hc.
Qed.

Lemma chars_text (cs : list string) : chars_ok cs -> chars (text cs) = cs.
Proof.
  destruct cs as [|ch cs]; [reflexivity|]. intros [[Hc|[Hne Hk]] Hcs].
  - unfold chars.
    pose proof (split_chars_text (ch :: cs) (Forall_cons _ Hc Hcs) ""
                                 eq_refl) as E.
    cbn [append] in E. now rewrite E.
  - unfold chars.
    pose proof (split_chars_text cs Hcs ch Hk) as E.
    change (ch ++ text cs)%string with (text (ch :: cs)) in E.
    rewrite E. destruct ch; [congruence|reflexivity].
Qed.

Lemma chars_ok_tail (ch : string) (cs : list string) :
  chars_ok (ch :: cs) -> chars_ok cs.
Proof.
  intros [_ H]. destruct cs as [|c cs]; cbn; [exact I|].
  inversion H; subst. auto.
Qed.

Lemma chars_ok_suffix (a b : list string) : chars_ok (a ++ b) -> chars_ok b.
Proof.
  induction a as [|x a IH]; cbn [app]; [auto|].
  intros H. apply IH. eapply chars_ok_tail; eauto.
Qed.

Lemma chars_ok_prefix (a b : list string) : chars_ok (a ++ b) -> chars_ok a.
Proof.
  destruct a as [|x a]; cbn; [auto|]. intros [H1 H2]. split; [assumption|].
  now apply Forall_app in H2 as [H2 _].
Qed.

Lemma chars_ok_segment (part whole : list string) :
  segment part whole -> chars_ok whole -> chars_ok part.
Proof.
  intros (a & b & ->) H. apply chars_ok_suffix in H.
  now apply chars_ok_prefix in H.
Qed.

(** ** Stripping *)

Lemma drop_while_suffix {A : Type} (f : A -> bool) (l : list A) :
  exists dropped, l = dropped ++ drop_while f l.
Proof.
  induction l as [|x l [d IH]]; cbn; [now exists []|].
  destruct (f x); [|now exists []].
  exists (x :: d). cbn. now f_equal.
Qed.

Lemma drop_while_head {A : Type} (f : A -> bool) (l : list A) (x : A)
      (rest : list A) :
  drop_while f l = x :: rest -> f x = false.
Proof.
  induction l as [|y l IH]; cbn; [discriminate|].
  destruct (f y) eqn:E; [assumption|]. intros [= <- _]. exact E.
Qed.

Lemma segment_refl {A : Type} (l : list A) : segment l l.
Proof. exists [], []. cbn. now rewrite app_nil_r. Qed.

Lemma segment_trans {A : Type} (a b c : list A) :
  segment a b -> segment b c -> segment a c.
Proof.
  intros (x & y & ->) (u & v & ->). exists (u ++ x), (y ++ v).
  now rewrite <- !app_assoc.
Qed.

Lemma skipn_segment {A : Type} (n : nat) (l : list A) :
  segment (skipn n l) l.
Proof.
  exists (firstn n l), []. now rewrite app_nil_r, firstn_skipn.
Qed.

Lemma strip_chars_segment (cs : list string) : segment (strip_chars cs) cs.
Proof.
  unfold strip_chars.
  destruct (drop_while_suffix isspace cs) as [d1 H1].
  destruct (drop_while_suffix isspace (rev (drop_while isspace cs)))
    as [d2 H2].
  exists d1, (rev d2).
  rewrite <- rev_app_distr, <- H2, rev_involutive. exact H1.
Qed.

Lemma last_rev_cons {A : Type} (x : A) (l : list A) (d : A) :
  List.last (rev (x :: l)) d = x.
Proof. cbn. apply last_last. Qed.

Lemma hd_app_nonempty {A : Type} (a b : list A) (d : A) :
  a <> [] -> hd d (a ++ b) = hd d a.
Proof. destruct a; [congruence|reflexivity]. Qed.

Lemma strip_chars_trimmed (cs : list string) : trimmed (strip_chars cs).
Proof.
  unfold strip_chars, trimmed.
  set (m := drop_while isspace cs).
  destruct (drop_while isspace (rev m)) as [|x e] eqn:E; [now left|].
  right. split.
  - destruct (drop_while_suffix isspace (rev m)) as [d Hd].
    rewrite E in Hd.
    assert (Hm : m = rev (x :: e) ++ rev d).
    { rewrite <- rev_app_distr, <- Hd. now rewrite rev_involutive. }
    assert (Hne : rev (x :: e) <> []).
    { cbn. intros H. apply app_eq_nil in H as [_ H]. discriminate. }
    rewrite <- (hd_app_nonempty _ (rev d) "" Hne), <- Hm.
    destruct m as [|y m'] eqn:Em.
    + exfalso. destruct (rev (x :: e)); [congruence|discriminate].
    + cbn. now apply (drop_while_head isspace cs y m').
  - rewrite last_rev_cons. now apply (drop_while_head _ _ _ _ E).
Qed.

Lemma chars_strip (s : string) : chars (strip s) = strip_chars (chars s).
Proof.
  unfold strip. apply chars_text.
  eapply chars_ok_segment; [apply strip_chars_segment|apply chars_chars_ok].
Qed.

Lemma chars_slice_from (n : nat) (s : string) :
  chars (slice_from n s) = skipn n (chars s).
Proof.
  unfold slice_from. apply chars_text.
  eapply chars_ok_segment; [apply skipn_segment|apply chars_chars_ok].
Qed.

Lemma chars_clean (llm_output : string) :
  chars (clean_llm_nl_response llm_output)
  = strip_chars (chars llm_output) \/
  chars (clean_llm_nl_response llm_output)
  = strip_chars (skipn (py_len expert_prefix)
                       (strip_chars (chars llm_output))).
Proof.
  unfold clean_llm_nl_response. destruct llm_output as [|c s]; [now left|].
  destruct (String.prefix _ _).
  - right. now rewrite chars_strip, chars_slice_from, chars_strip.
  - left. apply chars_strip.
Qed.

(** X16.  The cleaned text of the model is a run of consecutive characters
    of the raw text with no whitespace at either end; nothing is rewritten
    or added. *)
Theorem cleaned_text_is_trimmed_part (llm_output : string) :
  trimmed (chars (clean_llm_nl_response llm_output)) /\
  segment (chars (clean_llm_nl_response llm_output)) (chars llm_output).
Proof.
  destruct (chars_clean llm_output) as [-> | ->]; split;
    try apply strip_chars_trimmed.
  - apply strip_chars_segment.
  - eapply segment_trans; [apply strip_chars_segment|].
    eapply segment_trans; [apply skipn_segment|apply strip_chars_segment].
Qed.

(** ** The answers *)

Lemma clean_is_trimmed (llm_output : string) :
  trimmed (chars (clean_llm_nl_response llm_output)).
Proof.
  destruct (chars_clean llm_output) as [-> | ->]; apply strip_chars_trimmed.
Qed.

Lemma default_error_is_trimmed : trimmed (chars DEFAULT_ERROR_RESPONSE).
Proof. right. split; reflexivity. Qed.

Lemma no_fact_response_is_trimmed : trimmed (chars NO_FACT_RESPONSE).
Proof. right. split; reflexivity. Qed.

(** X17.  Whatever the model returns, the answer of each of the three
    modes has no whitespace at either end. *)
Theorem answers_are_trimmed
        (call_hf_inference_api : string -> string -> option string)
        (reasoning_result : report) (question0 model_name : string)
        (retrieved_facts : list string) :
  trimmed (chars (generate_response_from_reasoning_path
                    call_hf_inference_api reasoning_result)) /\
  trimmed (chars (get_llm_direct_response
                    call_hf_inference_api question0 model_name)) /\
  trimmed (chars (generate_enriched_prompt_response
                    call_hf_inference_api question0 retrieved_facts
                    model_name)).
Proof.
  split; [|split].
  - unfold generate_response_from_reasoning_path.
    destruct (faits_deduits reasoning_result);
      [apply no_fact_response_is_trimmed|].
    destruct (call_hf_inference_api _ _);
      [apply clean_is_trimmed|apply default_error_is_trimmed].
  - unfold get_llm_direct_response.
    destruct (call_hf_inference_api _ _);
      [apply clean_is_trimmed|apply default_error_is_trimmed].
  - unfold generate_enriched_prompt_response.
    destruct question0; [apply default_error_is_trimmed|].
    destruct (call_hf_inference_api _ _) as [t|];
      [|apply default_error_is_trimmed].
    pose proof (clean_is_trimmed t) as H.
    destruct (clean_llm_nl_response t);
      [apply default_error_is_trimmed|exact H].
Qed.

(** X18.  The answer of the enriched mode is never the empty text: an
    empty question, a failed call and a model text that is empty once
    cleaned all give the default error response; otherwise the answer is
    the cleaned text of the model. *)
Theorem enriched_answer_is_never_empty
        (call_hf_inference_api : string -> string -> option string)
        (question0 : string) (retrieved_facts : list string)
        (model_name : string) :
  let answer := generate_enriched_prompt_response
                  call_hf_inference_api question0 retrieved_facts
                  model_name in
  let prompt := enriched_prompt question0
                                (facts_context_of retrieved_facts) in
  answer <> "" /\
  (question0 = "" -> answer = DEFAULT_ERROR_RESPONSE) /\
  (call_hf_inference_api prompt model_name = None ->
   answer = DEFAULT_ERROR_RESPONSE) /\
  (forall generated_text,
     question0 <> "" ->
     call_hf_inference_api prompt model_name = Some generated_text ->
     answer = if String.eqb (clean_llm_nl_response generated_text) ""
              then DEFAULT_ERROR_RESPONSE
              else clean_llm_nl_response generated_text).
Proof.
  cbv zeta. unfold generate_enriched_prompt_response.
  destruct question0 as [|c q].
  - repeat split; try reflexivity; try discriminate. congruence.
  - destruct (call_hf_inference_api _ model_name) as [t|].
    + destruct (clean_llm_nl_response t) as [|c' y] eqn:E.
      * repeat split; try discriminate.
        intros g _ [= <-]. now rewrite E.
      * repeat split; try discriminate.
        intros g _ [= <-]. now rewrite E.
    + repeat split; try discriminate.
Qed.

Lemma reported_facts_empty_iff (ord : set_order) (question0 : string)
      (graph : Graph) (r : report) :
  find_reasoning_path ord question0 graph = Returned r ->
  (faits_deduits r = [] <->
   _identify_all_entities ord question0 graph = []).
Proof.
  intros Hr. split.
  - intros Hf.
    destruct (_identify_all_entities ord question0 graph) as [|e rest] eqn:E;
      [reflexivity|].
    assert (Hne : _identify_all_entities ord question0 graph <> [])
      by (rewrite E; discriminate).
    pose proof (deduced_facts_not_empty _ _ _ Hne) as Hfacts.
    apply reported_facts in Hr as [Hc _]; [|assumption].
    apply comprehension_length in Hc.
    rewrite iterate_length, Hf in Hc. cbn in Hc.
    destruct (deduced_facts ord question0 graph); [congruence|discriminate].
  - intros E.
    rewrite (unresolved_question_gives_empty_report_aux _ _ _ E) in Hr.
    now injection Hr as <-.
Qed.

(** X19.  The reasoning mode, report then answer: the fixed answer that no
    fact was found is given, without asking the model, exactly when the
    question resolved no entity.  Otherwise the model is asked with the
    prompt built from the question and one line per fact of the report,
    and the answer is the default error response on a failed call, else
    the cleaned text of the model -- be it empty. *)
Theorem reasoning_answer_follows_resolution (ord : set_order)
        (question0 : string) (graph : Graph) (r : report) :
  find_reasoning_path ord question0 graph = Returned r ->
  ((forall call_hf_inference_api,
      generate_response_from_reasoning_path call_hf_inference_api r
      = NO_FACT_RESPONSE) <->
   _identify_all_entities ord question0 graph = []) /\
  (_identify_all_entities ord question0 graph <> [] ->
   forall call_hf_inference_api,
     generate_response_from_reasoning_path call_hf_inference_api r
     = match call_hf_inference_api
               (reasoning_prompt question0
                  (join nl (map (fun fact => ("- " ++ fact)%string)
                                (faits_deduits r))))
               DEFAULT_HF_MODEL with
       | None => DEFAULT_ERROR_RESPONSE
       | Some generated_text => clean_llm_nl_response generated_text
       end).
Proof.
  intros Hr. pose proof (reported_facts_empty_iff _ _ _ _ Hr) as Hiff.
  assert (Hq : question r = question0).
  { destruct (_identify_all_entities ord question0 graph) as [|e l] eqn:E.
    - rewrite (unresolved_question_gives_empty_report_aux _ _ _ E) in Hr.
      now injection Hr as <-.
    - rewrite find_reasoning_path_steps, E in Hr.
      now apply format_report_fields in Hr as (Hq & _). }
  split.
  - split.
    + intros H. apply Hiff. specialize (H (fun _ _ => None)).
      unfold generate_response_from_reasoning_path in H.
      destruct (faits_deduits r); [reflexivity|discriminate H].
    + intros E llm. unfold generate_response_from_reasoning_path.
      now rewrite (proj2 Hiff E).
  - intros Hne llm. unfold generate_response_from_reasoning_path.
    rewrite Hq. destruct (faits_deduits r) eqn:F; [|reflexivity].
    exfalso. apply Hne. now apply Hiff.
Qed.

Lemma reasoning_answer_follows_resolution_witness :
  let r := {| question := Fixture.question_no_entity;
              entites_initiales := [];
              chemin_trouve := [];
              faits_deduits := [] |} in
  find_reasoning_path insertion_order Fixture.question_no_entity
                      Fixture.ontology = Returned r /\
  ((forall call_hf_inference_api,
      generate_response_from_reasoning_path call_hf_inference_api r
      = NO_FACT_RESPONSE) <->
   _identify_all_entities insertion_order Fixture.question_no_entity
                          Fixture.ontology = []).
Proof.
  cbv zeta. split; [reflexivity|].
  apply (reasoning_answer_follows_resolution insertion_order
           Fixture.question_no_entity Fixture.ontology).
  reflexivity.
Defined.

(** ** Facts come from the graph *)

Lemma selected_path_in_graph (ord : set_order) (question0 : string)
      (graph : Graph) (p : path) :
  selected_path ord question0 graph = Some p ->
  path_truthy (Some p) = true ->
  forall t, In t p -> In t graph.
Proof.
  intros Hp Ht. unfold selected_path in Hp.
  destruct (identified_entity_set ord question0 graph) as [ND HU].
  destruct (selected_path_origin graph _ ND) as (s & e & Hs & He & Hne & Hf).
  { now rewrite Hp. }
  rewrite Hp in Hf. symmetry in Hf.
  destruct (find_sound _ _ _ _ Hf) as (nodes & W & _).
  destruct (walk_shape _ _ _ _ _ W (HU s Hs)) as (_ & _ & Hh).
  rewrite Forall_forall in Hh. intros t Hin. now apply Hh.
Qed.

(** X20.  Every fact collected for the report is a triple stored in the
    graph: the core adds nothing of its own. *)
Theorem deduced_facts_are_graph_triples (ord : set_order)
        (question0 : string) (graph : Graph) (t : triple) :
  In t (deduced_facts ord question0 graph) -> In t graph.
Proof.
  unfold deduced_facts.
  destruct (selected_path ord question0 graph) as [[|hop hops]|] eqn:Hp;
    cbn [collect_facts].
  - destruct (_identify_all_entities ord question0 graph) as [|e rest];
      [intros []|].
    intros H. now apply neighborhood_regime_in in H.
  - intros H. apply path_regime_in in H as [H|(n & _ & Hin & _)];
      [|assumption].
    eapply selected_path_in_graph; eauto.
  - destruct (_identify_all_entities ord question0 graph) as [|e rest];
      [intros []|].
    intros H. now apply neighborhood_regime_in in H.
Qed.

Lemma deduced_facts_are_graph_triples_witness :
  In (Fixture.FalseSharing, RDF_type, Fixture.ProblemePerformance)
     Fixture.ontology.
Proof.
  apply (deduced_facts_are_graph_triples insertion_order
           Fixture.question_two_entities Fixture.ontology).
  vm_compute. right. right. left. reflexivity.
Defined.

(** ** Longer questions *)

Lemma prefix_iff (a s : string) :
  String.prefix a s = true <-> exists b, s = (a ++ b)%string.
Proof.
  revert s. induction a as [|x a IH]; intros s; cbn.
  - split; [intros _; now exists s|intros _; now destruct s].
  - destruct s as [|y s]; cbn.
    + split; [discriminate|]. intros [b H]. discriminate.
    + destruct (ascii_dec x y) as [->|Hne].
      * rewrite IH. split; intros [b H]; exists b; congruence.
      * split; [discriminate|]. intros [b [= H _]]. congruence.
Qed.

Lemma contains_iff (needle haystack : string) :
  contains needle haystack = true <->
  exists a b, haystack = (a ++ needle ++ b)%string.
Proof.
  induction haystack as [|y s IH]; cbn [contains].
  - rewrite orb_false_r, prefix_iff. split.
    + intros [b H]. now exists "", b.
    + intros (a & b & H). destruct a; [now exists b|discriminate].
  - rewrite orb_true_iff, prefix_iff, IH. split.
    + intros [[b H]|(a & b & H)].
      * now exists "", b.
      * exists (String y a), b. cbn. now f_equal.
    + intros (a & b & H). destruct a as [|x a].
      * left. now exists b.
      * right. injection H as _ H. now exists a, b.
Qed.

Lemma contains_trans (a b c : string) :
  contains a b = true -> contains b c = true -> contains a c = true.
Proof.
  rewrite !contains_iff. intros (u & v & ->) (x & y & ->).
  exists (x ++ u)%string, (v ++ y)%string.
  now rewrite !string_append_assoc.
Qed.

(** X21.  The resolver reads the question through its lowercased text
    only, and only by substring tests: whatever the lowercasing [str_lower]
    that stands for [.lower()], when the lowercased text of a question
    occurs in the lowercased text of a longer one, every entity resolved for
    the former is resolved for the latter. *)
Theorem longer_question_resolves_more (str_lower : string -> string)
        (ord : set_order) (question0 longer : string) (graph : Graph)
        (e : term) :
  contains (str_lower question0) (str_lower longer) = true ->
  In e (_identify_all_entities_with str_lower ord question0 graph) ->
  In e (_identify_all_entities_with str_lower ord longer graph).
Proof.
  intros Hc.
  unfold _identify_all_entities_with.
  rewrite !iterate_in, !found_entities_with_in.
  intros [(k & ls & l & Hk & Hq & Hl & Hr)|(l & Hin & Hu & Hq)].
  - left. exists k, ls, l. repeat split; try assumption; try apply Hr.
    eapply contains_trans; eauto.
  - right. exists l. repeat split; auto. eapply contains_trans; eauto.
Qed.

Lemma longer_question_resolves_more_witness :
  In Fixture.CacheLineAlignment
     (_identify_all_entities_with lower insertion_order
        Fixture.question_two_entities Fixture.ontology).
Proof.
  apply (longer_question_resolves_more lower insertion_order
           "Cache Line Alignment" Fixture.question_two_entities).
  - reflexivity.
  - vm_compute. left. reflexivity.
Defined.
